(** * chartroutes_srlinux: route-count polling and convergence analysis

    A shallow embedding of [src/chartroutes/chartroutes_srlinux.py]:
    the decoding of a gNMI response into per-family route counts
    ([get_protocol_stats_by_family]), the polling loop that records them
    ([collect_route_data]) and the post-processing done by [main]
    (argument validation, selection of the devices with data, threshold
    crossing scan).

    Modelling conventions.
    - A Python [str] is a Rocq [string] whose characters are the code
      points U+0000..U+00FF.
    - A Python [float] is an exact rational of [Q]; clock readings and
      elapsed times are such rationals.  The exceptions of float
      arithmetic are modelled ([ZeroDivisionError], and [OverflowError]
      when an [int] beyond the range of a float meets a float), the
      rounding of its results is not.
    - [int] on a string is that of CPython 3.11 and later with the
      default limit of 4300 digits.
    - A value decoded by [json.loads] is a [pyval].
    - A raised exception is the [Raise] case of [result]; code that keeps
      its side effects when an exception escapes runs in the state and
      exception monad [M]. *)

From Stdlib Require Import ZArith QArith String Ascii List Lia.
From stdpp Require Import gmap strings list fin_maps sorting.

Set Warnings "-clear-no-such-hyp".

(** ** Python values and exceptions *)

#[warnings="-register-all"]
Inductive pyval : Type :=
| PNone
| PBool (b : bool)
| PInt (n : Z)
| PFloat (q : Q)
| PStr (s : string)
| PList (l : list pyval)
| PDict (d : list (string * pyval)).

Inductive exn : Type :=
| TypeError | AttributeError | KeyError | ValueError | IndexError
| ZeroDivisionError | OverflowError.

Inductive result (A : Type) : Type :=
| Ok (a : A)
| Raise (e : exn).
Arguments Ok {A} a.
Arguments Raise {A} e.

Definition rbind {A B} (r : result A) (k : A -> result B) : result B :=
  match r with
  | Ok a => k a
  | Raise e => Raise e
  end.

Notation "'let?' x ':=' r 'in' k" := (rbind r (fun x => k))
  (at level 10, x name, r at level 100, k at level 200).

(** State and exception monad: the state reached when an exception is
    raised is kept, as for a Python object mutated inside a [try]. *)
Definition M (S A : Type) : Type := S -> S * result A.

Definition ret {S A} (a : A) : M S A := fun s => (s, Ok a).

Definition bind {S A B} (m : M S A) (k : A -> M S B) : M S B :=
  fun s =>
    match m s with
    | (s', Ok a) => k a s'
    | (s', Raise e) => (s', Raise e)
    end.

Definition lift {S A} (r : result A) : M S A := fun s => (s, r).

Definition modify {S} (f : S -> S) : M S unit := fun s => (f s, Ok tt).

Definition try_except {S A} (m : M S A) (handler : exn -> M S A) : M S A :=
  fun s =>
    match m s with
    | (s', Ok a) => (s', Ok a)
    | (s', Raise e) => handler e s'
    end.

Notation "'let*' x ':=' m 'in' k" := (bind m (fun x => k))
  (at level 10, x name, m at level 100, k at level 200).

(** [for x in xs: body], stopping at the first exception. *)
Fixpoint for_each {S A} (xs : list A) (body : A -> M S unit) : M S unit :=
  match xs with
  | [] => ret tt
  | x :: xs' => let* _ := body x in for_each xs' body
  end.

(** ** Strings *)

Definition code (c : ascii) : nat := nat_of_ascii c.

(** [str.isspace] on one character. *)
Definition is_space (c : ascii) : bool :=
  let n := code c in
  ((9 <=? n) && (n <=? 13)) || ((28 <=? n) && (n <=? 32))
  || (n =? 133) || (n =? 160).

(** Characters with a decimal value: the ones [int] accepts. *)
Definition is_decimal (c : ascii) : bool :=
  let n := code c in (48 <=? n) && (n <=? 57).

(** Characters for which [str.isdigit] holds: the decimal digits and the
    superscripts two, three and one. *)
Definition is_digit (c : ascii) : bool :=
  let n := code c in
  is_decimal c || (n =? 178) || (n =? 179) || (n =? 185).

Fixpoint all_chars (p : ascii -> bool) (s : string) : bool :=
  match s with
  | EmptyString => true
  | String c s' => p c && all_chars p s'
  end.

Definition isdigit (s : string) : bool :=
  match s with
  | EmptyString => false
  | _ => all_chars is_digit s
  end.

Fixpoint lstrip (s : string) : string :=
  match s with
  | EmptyString => EmptyString
  | String c s' => if is_space c then lstrip s' else s
  end.

Fixpoint rstrip (s : string) : string :=
  match s with
  | EmptyString => EmptyString
  | String c s' =>
      match rstrip s' with
      | EmptyString => if is_space c then EmptyString else String c EmptyString
      | r => String c r
      end
  end.

Definition strip (s : string) : string := rstrip (lstrip s).

(** [s.split(sep)] for a separator of one character. *)
Fixpoint split (sep : ascii) (s : string) : list string :=
  match s with
  | EmptyString => [EmptyString]
  | String c s' =>
      if Ascii.eqb c sep then EmptyString :: split sep s'
      else match split sep s' with
           | [] => [String c EmptyString]
           | h :: t => String c h :: t
           end
  end.

Definition lower_char (c : ascii) : ascii :=
  let n := code c in
  if ((65 <=? n) && (n <=? 90))
     || ((192 <=? n) && (n <=? 222) && negb (n =? 215))
  then ascii_of_nat (n + 32) else c.

Fixpoint lower (s : string) : string :=
  match s with
  | EmptyString => EmptyString
  | String c s' => String (lower_char c) (lower s')
  end.

(** [str.upper] on the characters whose upper case is one character of
    the modelled range (this leaves out U+00B5, U+00DF and U+00FF, which
    are kept as they are). *)
Definition upper_char (c : ascii) : ascii :=
  let n := code c in
  if ((97 <=? n) && (n <=? 122))
     || ((224 <=? n) && (n <=? 254) && negb (n =? 247))
  then ascii_of_nat (n - 32) else c.

Fixpoint upper (s : string) : string :=
  match s with
  | EmptyString => EmptyString
  | String c s' => String (upper_char c) (upper s')
  end.

(** [needle in s] on strings. *)
Definition is_substring (needle s : string) : bool :=
  match String.index 0 needle s with
  | Some _ => true
  | None => false
  end.

(** Decimal reading of a run of digits with single underscores between
    digits, as [int] accepts it; [acc] is the value read so far and
    [after_digit] tells whether the previous character was a digit. *)
Fixpoint int_digits (s : string) (acc : Z) (after_digit : bool) : result Z :=
  match s with
  | EmptyString => if after_digit then Ok acc else Raise ValueError
  | String c s' =>
      if is_decimal c
      then int_digits s' (10 * acc + (Z.of_nat (code c) - 48)) true
      else if Ascii.eqb c "_" && after_digit
           then int_digits s' acc false
           else Raise ValueError
  end.

(** The greatest number of digits that [int] reads from a string:
    [sys.get_int_max_str_digits()], which is 4300 unless the interpreter
    is configured otherwise; the program leaves it as it is. *)
Definition int_max_str_digits : Z := 4300.

(** Number of digits of a string; the sign and the underscores do not
    count, leading zeros do. *)
Fixpoint digit_count (s : string) : Z :=
  match s with
  | EmptyString => 0
  | String c s' => (if is_decimal c then 1 else 0) + digit_count s'
  end.

(** The digits after the sign: a literal that is well formed but has
    more than [int_max_str_digits] digits is refused as well. *)
Definition int_unsigned (s : string) : result Z :=
  let? n := int_digits s 0 false in
  if (int_max_str_digits <? digit_count s)%Z then Raise ValueError else Ok n.

(** [int(s)] on a string. *)
Definition int (s : string) : result Z :=
  match strip s with
  | String "-" s' => let? n := int_unsigned s' in Ok (- n)%Z
  | String "+" s' => int_unsigned s'
  | s' => int_unsigned s'
  end.

(** ** Operations on decoded values *)

(** Truth value of an object. *)
Definition truthy (v : pyval) : bool :=
  match v with
  | PNone => false
  | PBool b => b
  | PInt n => negb (n =? 0)%Z
  | PFloat q => negb (Qnum q =? 0)%Z
  | PStr s => negb (String.eqb s "")
  | PList l => match l with [] => false | _ => true end
  | PDict d => match d with [] => false | _ => true end
  end.

Fixpoint chars (s : string) : list pyval :=
  match s with
  | EmptyString => []
  | String c s' => PStr (String c EmptyString) :: chars s'
  end.

(** [iter(v)]: what a [for] loop over [v] visits. *)
Definition py_iter (v : pyval) : result (list pyval) :=
  match v with
  | PList l => Ok l
  | PDict d => Ok (map (fun kv => PStr (fst kv)) d)
  | PStr s => Ok (chars s)
  | _ => Raise TypeError
  end.

Definition is_str (k : string) (v : pyval) : bool :=
  match v with
  | PStr s => String.eqb s k
  | _ => false
  end.

Fixpoint dict_get {V} (k : string) (d : list (string * V)) : option V :=
  match d with
  | [] => None
  | (k', v) :: d' => if String.eqb k k' then Some v else dict_get k d'
  end.

Definition dict_mem {V} (k : string) (d : list (string * V)) : bool :=
  match dict_get k d with
  | Some _ => true
  | None => false
  end.

(** [d[k] = v] on an insertion-ordered dict. *)
Fixpoint dict_set {V} (k : string) (v : V) (d : list (string * V))
  : list (string * V) :=
  match d with
  | [] => [(k, v)]
  | (k', v') :: d' =>
      if String.eqb k k' then (k, v) :: d' else (k', v') :: dict_set k v d'
  end.

(** [k in v] for a string [k]. *)
Definition py_contains (k : string) (v : pyval) : result bool :=
  match v with
  | PDict d => Ok (dict_mem k d)
  | PList l => Ok (existsb (is_str k) l)
  | PStr s => Ok (is_substring k s)
  | _ => Raise TypeError
  end.

(** [v[k]] for a string [k]. *)
Definition py_getitem (v : pyval) (k : string) : result pyval :=
  match v with
  | PDict d => match dict_get k d with
               | Some x => Ok x
               | None => Raise KeyError
               end
  | _ => Raise TypeError
  end.

(** [v.items()]. *)
Definition py_items (v : pyval) : result (list (string * pyval)) :=
  match v with
  | PDict d => Ok d
  | _ => Raise AttributeError
  end.

(** [v.get(k, dflt)]. *)
Definition py_get (v : pyval) (k : string) (dflt : pyval) : result pyval :=
  match v with
  | PDict d => Ok (default dflt (dict_get k d))
  | _ => Raise AttributeError
  end.

(** ** [get_protocol_stats_by_family] *)

(** The per-family entry [{'total': X, 'active': Y}]. *)
Record stats : Type := { total : pyval; active : pyval }.

Definition zero_stats : stats := {| total := PInt 0; active := PInt 0 |}.

(** The [results] dict, in insertion order. *)
Abbreviation results := (list (string * stats)).

Definition family_map : list (string * string) :=
  [ ("ipv4-unicast", "srl_nokia-common:ipv4-unicast");
    ("ipv6-unicast", "srl_nokia-common:ipv6-unicast");
    ("evpn", "srl_nokia-common:evpn") ].

(** [if isinstance(x, str): x = int(x) if x.isdigit() else 0] *)
Definition to_count (x : pyval) : result pyval :=
  match x with
  | PStr s => if isdigit s then let? n := int s in Ok (PInt n) else Ok (PInt 0)
  | _ => Ok x
  end.

(** Body of [for requested_family in families]. *)
Definition match_family (afi_safi afi_name : pyval) (requested_family : string)
  : M results unit :=
  let sr_linux_name :=
    default requested_family (dict_get requested_family family_map) in
  if is_str sr_linux_name afi_name then
    let* active := lift (py_get afi_safi "active-routes" (PInt 0)) in
    let* received := lift (py_get afi_safi "received-routes" (PInt 0)) in
    let* active := lift (to_count active) in
    let* received := lift (to_count received) in
    modify (dict_set requested_family {| total := received; active := active |})
  else ret tt.

(** Body of [for afi_safi in afi_safi_list]. *)
Definition process_afi_safi (families : list string) (afi_safi : pyval)
  : M results unit :=
  let* afi_name := lift (py_get afi_safi "afi-safi-name" (PStr "")) in
  for_each families (match_family afi_safi afi_name).

(** The list chosen for one [value] of [values.items()]. *)
Definition afi_safi_list_of (value : pyval) : result pyval :=
  match value with
  | PList _ => Ok value
  | PDict d =>
      if dict_mem "afi-safi" d then py_getitem value "afi-safi"
      else Ok (PList [])
  | _ => Ok (PList [])
  end.

(** Body of [for key, value in values.items()]. *)
Definition process_value (families : list string) (kv : string * pyval)
  : M results unit :=
  let* afi_safi_list := lift (afi_safi_list_of (snd kv)) in
  let* l := lift (py_iter afi_safi_list) in
  for_each l (process_afi_safi families).

(** Body of [for update in item['updates']]. *)
Definition process_update (families : list string) (update : pyval)
  : M results unit :=
  let* has_values := lift (py_contains "values" update) in
  if has_values then
    let* values := lift (py_getitem update "values") in
    let* items := lift (py_items values) in
    for_each items (process_value families)
  else ret tt.

(** Body of [for item in data]. *)
Definition process_item (families : list string) (item : pyval)
  : M results unit :=
  let* has_updates := lift (py_contains "updates" item) in
  if has_updates then
    let* updates := lift (py_getitem item "updates") in
    let* l := lift (py_iter updates) in
    for_each l (process_update families)
  else ret tt.

(** [for family in families: if family not in results: results[family] = zeros] *)
Definition fill_missing (families : list string) : M results unit :=
  for_each families
    (fun family =>
       modify (fun r => if dict_mem family r then r
                        else dict_set family zero_stats r)).

(** [for family in families: results[family] = {'total': 0, 'active': 0}] *)
Definition fill_zeros (families : list string) : M results unit :=
  for_each families (fun family => modify (dict_set family zero_stats)).

(** The [try] block. *)
Definition parse_response (families : list string) (data : pyval)
  : M results unit :=
  let* items := lift (py_iter data) in
  let* _ := for_each items (process_item families) in
  fill_missing families.

(** [data] is what [execute_gnmic_command] returned: the decoded
    response, or [PNone] when the command failed, timed out or printed
    something that is not JSON. *)
Definition get_protocol_stats_by_family
    (protocol : string) (families : list string) (data : pyval) : results :=
  let body :=
    if String.eqb (lower protocol) "bgp" then
      if truthy data then
        try_except (parse_response families data)
                   (fun _ => fill_zeros families)
      else fill_zeros families
    else fill_zeros families in
  fst (body []).

(** A well-formed SR Linux answer carrying the given AFI-SAFI entries. *)
Definition response (entries : list pyval) : pyval :=
  PList [PDict [("updates",
    PList [PDict [("values",
      PDict [("srl_nokia-network-instance:network-instance/protocols/srl_nokia-bgp:bgp/afi-safi",
              PList entries)])]])]].

Definition afi_entry (name : string) (act rcv : pyval) : pyval :=
  PDict [("afi-safi-name", PStr name); ("active-routes", act);
         ("received-routes", rcv)].

(** ** [collect_route_data] *)

(** [data_dict[target]['routeStats']], a [defaultdict(list)]. *)
Abbreviation routeStats := (gmap string (list pyval)).

Definition elapsed_key : string := "Elapsed Time".

Definition total_key (family protocol : string) : string :=
  family +:+ " " +:+ upper protocol +:+ " Total Routes".

Definition active_key (family protocol : string) : string :=
  family +:+ " " +:+ upper protocol +:+ " Active Routes".

(** [d[k].append(v)] on a [defaultdict(list)]. *)
Definition dd_append (k : string) (v : pyval) (rs : routeStats) : routeStats :=
  <[k := default [] (rs !! k) ++ [v]]> rs.

(** Body of [for family, stats in family_stats.items()]. *)
Definition record_family (protocol : string) (rs : routeStats)
    (entry : string * stats) : routeStats :=
  let '(family, st) := entry in
  dd_append (active_key family protocol) (active st)
    (dd_append (total_key family protocol) (total st) rs).

(** The block guarded by [if family_stats:]. *)
Definition record_sample (protocol : string) (elapsed : Q)
    (family_stats : results) (rs : routeStats) : routeStats :=
  match family_stats with
  | [] => rs
  | _ => foldl (record_family protocol)
               (dd_append elapsed_key (PFloat elapsed) rs) family_stats
  end.

(** What one evaluation of the loop condition and one loop body read from
    the outside: the stop flag, the clock in the condition, the clock in
    the body and the answer of [execute_gnmic_command]. *)
Record tick : Type := {
  stop_threads : bool;
  guard_clock : Q;
  sample_clock : Q;
  fetched : pyval
}.

Definition Qltb (a b : Q) : bool := negb (Qle_bool b a).

(** [not stop_threads and (time.time() - start_time) < duration] *)
Definition loop_condition (start_time : Q) (duration : Z) (t : tick) : bool :=
  negb (stop_threads t)
  && Qltb (guard_clock t - start_time) (inject_Z duration).

(** One round of the [while] loop. *)
Definition poll_once (protocol : string) (families : list string)
    (start_time : Q) (rs : routeStats) (t : tick) : routeStats :=
  let elapsed := (sample_clock t - start_time)%Q in
  let family_stats :=
    get_protocol_stats_by_family protocol families (fetched t) in
  record_sample protocol elapsed family_stats rs.

(** The [while] loop, for the readings of the rounds to come. *)
Fixpoint poll_loop (protocol : string) (families : list string)
    (start_time : Q) (duration : Z) (ticks : list tick) (rs : routeStats)
  : routeStats :=
  match ticks with
  | [] => rs
  | t :: ticks' =>
      if loop_condition start_time duration t
      then poll_loop protocol families start_time duration ticks'
                     (poll_once protocol families start_time rs t)
      else rs
  end.

Definition init_routeStats : routeStats := {[ elapsed_key := [] ]}.

(** The shared [data_dict], by target. *)
Abbreviation rtrData := (gmap string (gmap string (list pyval))).

Definition collect_route_data (target protocol : string)
    (families : list string) (start_time : Q) (duration : Z)
    (ticks : list tick) (data_dict : rtrData) : rtrData :=
  <[target := poll_loop protocol families start_time duration ticks
                        init_routeStats]> data_dict.

(** ** [main]: argument validation *)

Record arguments : Type := {
  arg_targets : string;
  arg_protocol : string;
  arg_families : string;
  arg_duration : Z;
  arg_start_values : option string;
  arg_end_values : option string
}.

(** Truth value of an optional command-line string. *)
Definition given (o : option string) : bool :=
  match o with
  | Some s => negb (String.eqb s "")
  | None => false
  end.

Fixpoint map_result {A B} (f : A -> result B) (l : list A) : result (list B) :=
  match l with
  | [] => Ok []
  | x :: l' => let? y := f x in let? ys := map_result f l' in Ok (y :: ys)
  end.

(** [[int(v.strip()) for v in s.split(',')]] *)
Definition int_list (s : string) : result (list Z) :=
  map_result (fun v => int (strip v)) (split "," s).

(** How [main] leaves its first phase: [sys.exit], an exception that
    nothing catches, or the start of one collection thread per target. *)
Inductive startup : Type :=
| Exit (status : Z) (message : string)
| Uncaught (e : exn)
| Collect (targets families : list string)
          (thresholds : option (list Z * list Z)).

Definition mismatch_message : string :=
  "ERROR: Number of start/end values must match number of address families".

Definition main_startup (a : arguments) : startup :=
  let targets := map strip (split "," (arg_targets a)) in
  let families := map strip (split "," (arg_families a)) in
  if given (arg_start_values a) && given (arg_end_values a) then
    match int_list (default "" (arg_start_values a)) with
    | Raise e => Uncaught e
    | Ok starting_values =>
        match int_list (default "" (arg_end_values a)) with
        | Raise e => Uncaught e
        | Ok ending_values =>
            if negb (length starting_values =? length families)
               || negb (length ending_values =? length families)
            then Exit 1 mismatch_message
            else Collect targets families
                         (Some (starting_values, ending_values))
        end
    end
  else Collect targets families None.

(** The targets a collection thread was started for. *)
Definition pollers_started (s : startup) : list string :=
  match s with
  | Collect targets _ _ => targets
  | _ => []
  end.

(** ** [main]: devices with data *)

(** [target in rtrData and len(rtrData[target]['routeStats']) > 1] *)
Definition has_data (data : rtrData) (target : string) : bool :=
  match data !! target with
  | Some rs => 1 <? size rs
  | None => false
  end.

Definition valid_targets (targets : list string) (data : rtrData)
  : list string :=
  List.filter (has_data data) targets.

(** ** [main]: convergence scan *)

(** Numbers as Python compares and subtracts them: [bool] and [int] are
    integers, a [float] is a rational. *)
Inductive num : Type :=
| NInt (n : Z)
| NFloat (q : Q).

Definition as_num (v : pyval) : result num :=
  match v with
  | PInt n => Ok (NInt n)
  | PBool b => Ok (NInt (Z.b2z b))
  | PFloat q => Ok (NFloat q)
  | _ => Raise TypeError
  end.

Definition num_Q (x : num) : Q :=
  match x with
  | NInt n => inject_Z n
  | NFloat q => q
  end.

Definition num_ltb (x y : num) : bool :=
  match x, y with
  | NInt a, NInt b => (a <? b)%Z
  | _, _ => Qltb (num_Q x) (num_Q y)
  end.

Definition num_leb (x y : num) : bool :=
  match x, y with
  | NInt a, NInt b => (a <=? b)%Z
  | _, _ => Qle_bool (num_Q x) (num_Q y)
  end.

(** [a < b], [a <= b], [a > b], [a >= b] *)
Definition py_lt (a b : pyval) : result bool :=
  let? x := as_num a in let? y := as_num b in Ok (num_ltb x y).
Definition py_le (a b : pyval) : result bool :=
  let? x := as_num a in let? y := as_num b in Ok (num_leb x y).
Definition py_gt (a b : pyval) : result bool :=
  let? x := as_num a in let? y := as_num b in Ok (num_ltb y x).
Definition py_ge (a b : pyval) : result bool :=
  let? x := as_num a in let? y := as_num b in Ok (num_leb y x).

(** The least magnitude that does not fit a float: half an ulp above
    the greatest double, [2 ** 1024 - 2 ** 970]. *)
Definition float_overflow : Z := 2 ^ 1024 - 2 ^ 970.

(** The operand of a float operation: an [int] is converted, which
    raises [OverflowError] when it is too large. *)
Definition to_float (x : num) : result Q :=
  match x with
  | NInt n =>
      if (Z.abs n <? float_overflow)%Z then Ok (inject_Z n)
      else Raise OverflowError
  | NFloat q => Ok q
  end.

(** [a - b]: exact on two integers, a float operation otherwise. *)
Definition py_sub (a b : pyval) : result pyval :=
  let? x := as_num a in
  let? y := as_num b in
  match x, y with
  | NInt m, NInt n => Ok (PInt (m - n))
  | _, _ =>
      let? p := to_float x in
      let? q := to_float y in
      Ok (PFloat (p - q))
  end.

(** [a / b]: two integers are divided exactly and the quotient must fit
    a float; otherwise both operands are converted before the divisor is
    tested.  The quotient is the exact one, which the program rounds to
    the nearest float. *)
Definition py_truediv (a b : pyval) : result pyval :=
  let? x := as_num a in
  let? y := as_num b in
  match x, y with
  | NInt m, NInt n =>
      if (n =? 0)%Z then Raise ZeroDivisionError
      else if (Z.abs m <? float_overflow * Z.abs n)%Z
           then Ok (PFloat (inject_Z m / inject_Z n))
           else Raise OverflowError
  | _, _ =>
      let? p := to_float x in
      let? q := to_float y in
      if Qeq_bool q 0 then Raise ZeroDivisionError
      else Ok (PFloat (p / q))
  end.

(** [l[i]] for an index that is not negative. *)
Definition py_index {A} (l : list A) (i : nat) : result A :=
  match l !! i with
  | Some x => Ok x
  | None => Raise IndexError
  end.

(** [for i, count in enumerate(l): if p(count): found = i; break],
    with [i] counted from [i0]. *)
Fixpoint first_index (p : pyval -> result bool) (l : list pyval) (i0 : nat)
  : result (option nat) :=
  match l with
  | [] => Ok None
  | count :: l' =>
      let? hit := p count in
      if hit then Ok (Some i0) else first_index p l' (S i0)
  end.

(** [max(0, i - 1)] *)
Definition step_back (i : nat) : nat := Z.to_nat (Z.max 0 (Z.of_nat i - 1)).

(** The two index searches, for a rising or a falling route count. *)
Definition find_indexes (route_counts : list pyval) (start_value end_value : Z)
  : result (option nat * option nat) :=
  if (start_value <? end_value)%Z then
    let? s := first_index (fun count => py_gt count (PInt start_value))
                          route_counts 0 in
    let? e := first_index (fun count => py_ge count (PInt end_value))
                          route_counts 0 in
    Ok (step_back <$> s, e)
  else
    let? s := first_index (fun count => py_lt count (PInt start_value))
                          route_counts 0 in
    let? e := first_index (fun count => py_le count (PInt end_value))
                          route_counts 0 in
    Ok (step_back <$> s, e).

(** What the scan reports: the crossing, or which of the two indexes is
    missing. *)
Inductive crossing : Type :=
| Found (start_idx end_idx : nat)
        (start_time end_time conv_time conv_rate : pyval)
| NotFound (start_idx end_idx : option nat).

(** [conv_rate = route_delta / conv_time if conv_time > 0 else 0] *)
Definition rate (start_value end_value : Z) (conv_time : pyval)
  : result pyval :=
  let route_delta := Z.abs (end_value - start_value) in
  let? positive := py_gt conv_time (PInt 0) in
  if positive then py_truediv (PInt route_delta) conv_time else Ok (PInt 0).

Definition find_crossing (route_counts time_values : list pyval)
    (start_value end_value : Z) : result crossing :=
  let? idx := find_indexes route_counts start_value end_value in
  match idx with
  | (Some start_idx, Some end_idx) =>
      let? start_time := py_index time_values start_idx in
      let? end_time := py_index time_values end_idx in
      let? conv_time := py_sub end_time start_time in
      let? conv_rate := rate start_value end_value conv_time in
      Ok (Found start_idx end_idx start_time end_time conv_time conv_rate)
  | (start_idx, end_idx) => Ok (NotFound start_idx end_idx)
  end.

(** [d[k]] on a [defaultdict(list)]: a missing key is created. *)
Definition dd_getitem (k : string) : M routeStats (list pyval) :=
  fun rs =>
    match rs !! k with
    | Some l => (rs, Ok l)
    | None => (<[k := []]> rs, Ok [])
    end.

(** Body of [for idx, family in enumerate(families)] for one target:
    [None] is the [continue] taken when the family has no series. *)
Definition family_convergence (protocol : string)
    (starting_values ending_values : list Z) (entry : nat * string)
  : M routeStats (option crossing) :=
  let '(idx, family) := entry in
  let key := total_key family protocol in
  fun rs =>
    match rs !! key with
    | None => (rs, Ok None)
    | Some _ =>
        (let* route_counts := dd_getitem key in
         let* time_values := dd_getitem elapsed_key in
         let* start_value := lift (py_index starting_values idx) in
         let* end_value := lift (py_index ending_values idx) in
         let* c := lift (find_crossing route_counts time_values
                                       start_value end_value) in
         ret (Some c)) rs
    end.

(** [for x in xs], keeping what each round produced. *)
Fixpoint map_each {S A B} (xs : list A) (body : A -> M S B) : M S (list B) :=
  match xs with
  | [] => ret []
  | x :: xs' =>
      let* y := body x in
      let* ys := map_each xs' body in
      ret (y :: ys)
  end.

Fixpoint enumerate {A} (i0 : nat) (l : list A) : list (nat * A) :=
  match l with
  | [] => []
  | x :: l' => (i0, x) :: enumerate (S i0) l'
  end.

(** The convergence report of one target. *)
Definition device_convergence (protocol : string) (families : list string)
    (starting_values ending_values : list Z)
  : M routeStats (list (option crossing)) :=
  map_each (enumerate 0 families)
           (family_convergence protocol starting_values ending_values).

(** A computation on [rtrData[target]['routeStats']]. *)
Definition at_target {A} (target : string) (m : M routeStats A)
  : M rtrData A :=
  fun data =>
    match data !! target with
    | Some rs => let '(rs', r) := m rs in (<[target := rs']> data, r)
    | None => (data, Raise KeyError)
    end.

(** How the analysis ends: [sys.exit(1)] when no target has data, or the
    convergence reports by target (none when no thresholds were given). *)
Inductive analysis : Type :=
| NoValidTarget
| Reports (r : result (list (string * list (option crossing)))).

(** [main] from the selection of the valid targets to the end of the
    convergence scan. *)
Definition main_convergence (protocol : string)
    (targets families : list string) (thresholds : option (list Z * list Z))
    (data : rtrData) : rtrData * analysis :=
  match valid_targets targets data with
  | [] => (data, NoValidTarget)
  | valid =>
      match thresholds with
      | Some (starting_values :: sv, ending_values :: ev) =>
          let '(data', r) :=
            map_each valid
              (fun target =>
                 let* report :=
                   at_target target
                     (device_convergence protocol families
                        (starting_values :: sv) (ending_values :: ev)) in
                 ret (target, report)) data in
          (data', Reports r)
      | _ => (data, Reports (Ok []))
      end
  end.

Definition ints (l : list Z) : list pyval := map PInt l.
Definition floats (l : list Q) : list pyval := map PFloat l.

(** ** [execute_gnmic_command] *)

(** What [subprocess.run] did: it returned, it timed out, or it raised
    something else. *)
Inductive run_outcome : Type :=
| Completed (returncode : Z) (stdout stderr : string)
| TimeoutExpired
| RunError.

(** The argument vector of the [gnmic] call. *)
Definition gnmic_cmd (target username password path : string) : list string :=
  [ "gnmic"; "-a"; target +:+ ":57400"; "--skip-verify"; "-u"; username;
    "-p"; password; "--encoding"; "json_ietf"; "get"; "--path"; path;
    "--format"; "json" ].

(** [run] stands for [subprocess.run] and [json_loads] for [json.loads],
    [None] being any exception it raises.  Every failure is turned into
    [None]. *)
Definition execute_gnmic_command (run : list string -> run_outcome)
    (json_loads : string -> option pyval)
    (target username password path : string) : pyval :=
  match run (gnmic_cmd target username password path) with
  | Completed returncode stdout _ =>
      if negb (returncode =? 0)%Z then PNone
      else match json_loads stdout with
           | Some response => response
           | None => PNone
           end
  | TimeoutExpired => PNone
  | RunError => PNone
  end.

(** The path both statistics functions query. *)
Definition afi_safi_path (network_instance : string) : string :=
  "/network-instance[name=" +:+ network_instance
  +:+ "]/protocols/bgp/afi-safi".

(** ** [get_route_summary] *)

(** [a + b] *)
Definition py_add (a b : pyval) : result pyval :=
  match a, b with
  | PInt m, PInt n => Ok (PInt (m + n))
  | PInt m, PBool c => Ok (PInt (m + Z.b2z c))
  | PBool c, PInt n => Ok (PInt (Z.b2z c + n))
  | PBool c, PBool d => Ok (PInt (Z.b2z c + Z.b2z d))
  | PInt m, PFloat q => let? p := to_float (NInt m) in Ok (PFloat (p + q))
  | PBool c, PFloat q => Ok (PFloat (inject_Z (Z.b2z c) + q))
  | PFloat p, PInt n => let? q := to_float (NInt n) in Ok (PFloat (p + q))
  | PFloat p, PBool d => Ok (PFloat (p + inject_Z (Z.b2z d)))
  | PFloat p, PFloat q => Ok (PFloat (p + q))
  | PStr s, PStr t => Ok (PStr (s +:+ t))
  | PList l, PList l' => Ok (PList (l ++ l'))
  | _, _ => Raise TypeError
  end.

(** Body of [for afi_safi in ...]: both counts are added to [stats]. *)
Definition add_afi_safi (afi_safi : pyval) : M stats unit :=
  let* act := lift (py_get afi_safi "active-routes" (PInt 0)) in
  let* rcv := lift (py_get afi_safi "received-routes" (PInt 0)) in
  let* act := lift (to_count act) in
  let* rcv := lift (to_count rcv) in
  let* _ := (fun st : stats =>
               match py_add (active st) act with
               | Ok v => ({| total := total st; active := v |}, Ok tt)
               | Raise e => (st, Raise e)
               end) in
  fun st : stats =>
    match py_add (total st) rcv with
    | Ok v => ({| total := v; active := active st |}, Ok tt)
    | Raise e => (st, Raise e)
    end.

(** Body of [for key, value in values.items()]. *)
Definition summary_value (kv : string * pyval) : M stats unit :=
  match snd kv with
  | PList l => for_each l add_afi_safi
  | PDict d =>
      if dict_mem "afi-safi" d then
        let* entries := lift (py_getitem (snd kv) "afi-safi") in
        let* l := lift (py_iter entries) in
        for_each l add_afi_safi
      else ret tt
  | _ => ret tt
  end.

(** Body of [for update in item['updates']]. *)
Definition summary_update (update : pyval) : M stats unit :=
  let* has_values := lift (py_contains "values" update) in
  if has_values then
    let* values := lift (py_getitem update "values") in
    let* items := lift (py_items values) in
    for_each items summary_value
  else ret tt.

(** Body of [for item in bgp_data]. *)
Definition summary_item (item : pyval) : M stats unit :=
  let* has_updates := lift (py_contains "updates" item) in
  if has_updates then
    let* updates := lift (py_getitem item "updates") in
    let* l := lift (py_iter updates) in
    for_each l summary_update
  else ret tt.

(** [bgp_data] is what [execute_gnmic_command] returned; the result
    [None] is Python's [None]. *)
Definition get_route_summary (protocol : string) (bgp_data : pyval)
  : option stats :=
  if String.eqb (lower protocol) "bgp" then
    if truthy bgp_data then
      match (let* items := lift (py_iter bgp_data) in
             for_each items summary_item) zero_stats with
      | (st, Ok _) => Some st
      | (_, Raise _) => None
      end
    else Some zero_stats
  else None.

(** ** Notions used in the statements *)

(** Whether a decoded value is a string. *)
Definition is_string (v : pyval) : bool :=
  match v with
  | PStr _ => true
  | _ => false
  end.

(** An entry none of whose two counts is a string. *)
Definition clean (st : stats) : Prop :=
  is_string (total st) = false /\ is_string (active st) = false.

(** The invariant of [results]: distinct keys, all of them requested
    families, and no count left as a string. *)
Definition shape (families : list string) (r : results) : Prop :=
  NoDup r.*1 /\ Forall (fun e => e.1 ∈ families /\ clean e.2) r.

(** The answer of [execute_gnmic_command] gives no usable count: the
    protocol is not BGP, nothing was fetched, or decoding raised. *)
Definition unusable (protocol : string) (families : list string)
    (data : pyval) : Prop :=
  String.eqb (lower protocol) "bgp" = false
  \/ truthy data = false
  \/ exists e, (parse_response families data []).2 = Raise e.


(** The characters of a key, last one first. *)
Definition backwards (s : string) : list ascii := rev (list_ascii_of_string s).

(** The sequence stored under a key, empty when the key is absent. *)
Definition series (rs : routeStats) (k : string) : list pyval :=
  default [] (rs !! k).

(** [x] is the total or the active key of one of the families [l]. *)
Definition family_key (protocol : string) (l : list string) (x : string)
  : Prop :=
  exists f, f ∈ l /\ (x = total_key f protocol \/ x = active_key f protocol).

(** What the loop over [family_stats.items()] appends under [x]. *)
Fixpoint appended (protocol : string) (fs : results) (x : string)
  : list pyval :=
  match fs with
  | [] => []
  | (f, st) :: fs' =>
      (if decide (x = total_key f protocol) then [total st] else [])
      ++ (if decide (x = active_key f protocol) then [active st] else [])
      ++ appended protocol fs' x
  end.

(** The rounds the loop runs: those before the first reading at which
    its condition fails. *)
Fixpoint executed (start_time : Q) (duration : Z) (ticks : list tick)
  : list tick :=
  match ticks with
  | [] => []
  | t :: ticks' =>
      if loop_condition start_time duration t
      then t :: executed start_time duration ticks'
      else []
  end.

(** The alignment invariant of one device. *)
Definition aligned (protocol : string) (families : list string)
    (rs : routeStats) : Prop :=
  is_Some (rs !! elapsed_key)
  /\ (forall x, is_Some (rs !! x) ->
        x = elapsed_key \/ family_key protocol families x)
  /\ (forall x, family_key protocol families x ->
        length (series rs x) = length (series rs elapsed_key)).

(** The exceptions of the scan: none of them is a division by zero. *)
Definition no_zero_division {A} (r : result A) : Prop :=
  r <> Raise ZeroDivisionError.

(** The only trace a scan leaves in a [defaultdict]: reading the elapsed
    times creates their key when it is missing. *)
Definition touch (rs : routeStats) : routeStats :=
  match rs !! elapsed_key with
  | Some _ => rs
  | None => <[elapsed_key := []]> rs
  end.

(** What the scan of one family computes from the two series. *)
Definition family_report (starting_values ending_values : list Z) (idx : nat)
    (route_counts time_values : list pyval) : result (option crossing) :=
  let? start_value := py_index starting_values idx in
  let? end_value := py_index ending_values idx in
  let? c := find_crossing route_counts time_values start_value end_value in
  Ok (Some c).

(** The entry of a family in the statistics, zeros when it has none. *)
Definition stats_of_family (f : string) (r : results) : stats :=
  default zero_stats (dict_get f r).



(** A count that converts to an integer, and that integer. *)
Definition countable (v : pyval) : Prop := exists n : Z, to_count v = Ok (PInt n).



(** The name under which SR Linux reports a requested family. *)
Definition sr_linux_name (family : string) : string :=
  default family (dict_get family family_map).









(** Whether the quotient of an integer by a positive number fits a
    float. *)
Definition quotient_fits (m : Z) (y : num) : bool :=
  match y with
  | NInt n => (Z.abs m <? float_overflow * Z.abs n)%Z
  | NFloat _ => (Z.abs m <? float_overflow)%Z
  end.

(** A string that does not begin with white space. *)
Definition starts_clean (s : string) : Prop :=
  match s with
  | EmptyString => True
  | String c _ => is_space c = false
  end.

(** * Properties *)

(** ** Insertion-ordered dicts *)

Lemma dict_mem_keys {V} (k : string) (d : list (string * V)) :
  dict_mem k d = true <-> k ∈ d.*1.
Proof.
  unfold dict_mem. induction d as [|[k' v] d IH]; simpl.
  - split; [done | by intros ?%elem_of_nil].
  - rewrite elem_of_cons. destruct (String.eqb_spec k k') as [->|Hne].
    + split; auto.
    + rewrite IH. naive_solver.
Qed.

Lemma dict_set_keys {V} (k : string) (v : V) (d : list (string * V)) x :
  x ∈ (dict_set k v d).*1 <-> x = k \/ x ∈ d.*1.
Proof.
  induction d as [|[k' v'] d IH]; simpl.
  - rewrite list_elem_of_singleton. split; [auto | by intros [?|?%elem_of_nil]].
  - destruct (String.eqb_spec k k') as [->|Hne]; simpl;
      rewrite !elem_of_cons; [|rewrite IH]; naive_solver.
Qed.

Lemma dict_set_NoDup {V} (k : string) (v : V) (d : list (string * V)) :
  NoDup d.*1 -> NoDup (dict_set k v d).*1.
Proof.
  induction d as [|[k' v'] d IH]; simpl; intros Hnd.
  - apply NoDup_singleton.
  - apply NoDup_cons in Hnd as [Hk' Hnd].
    destruct (String.eqb_spec k k') as [->|Hne]; simpl; apply NoDup_cons.
    + done.
    + split; [|by apply IH]. rewrite dict_set_keys. naive_solver.
Qed.

Lemma dict_set_Forall {V} (P : string * V -> Prop) k v d :
  P (k, v) -> Forall P d -> Forall P (dict_set k v d).
Proof.
  intros Hkv. induction 1 as [|[k' v'] d Hx Hd IH]; simpl.
  - by constructor.
  - destruct (String.eqb k k'); by constructor.
Qed.

(** ** Invariants of monadic code *)

(** [m] keeps the invariant [I] of the state, whether it returns or
    raises. *)
Definition preserves {S A} (I : S -> Prop) (m : M S A) : Prop :=
  forall s, I s -> I (m s).1.

Lemma preserves_ret {S A} (I : S -> Prop) (a : A) : preserves I (ret a).
Proof. by intros s. Qed.

Lemma preserves_lift {S A} (I : S -> Prop) (r : result A) :
  preserves I (lift r).
Proof. by intros s. Qed.

Lemma preserves_modify {S} (I : S -> Prop) (f : S -> S) :
  (forall s, I s -> I (f s)) -> preserves I (modify f).
Proof. intros Hf s Hs. by apply Hf. Qed.

Lemma preserves_bind {S A B} (I : S -> Prop) (m : M S A) (k : A -> M S B) :
  preserves I m -> (forall a, preserves I (k a)) -> preserves I (bind m k).
Proof.
  intros Hm Hk s Hs. unfold bind. specialize (Hm s Hs).
  destruct (m s) as [s' [a|e]]; simpl in *; [by apply Hk | done].
Qed.

Lemma preserves_bind_lift {S A B} (I : S -> Prop) (r : result A)
    (k : A -> M S B) :
  (forall a, r = Ok a -> preserves I (k a)) -> preserves I (bind (lift r) k).
Proof.
  intros Hk s Hs. unfold bind, lift. destruct r as [a|e]; [|done].
  by apply Hk.
Qed.

Lemma preserves_for_each {S A} (I : S -> Prop) (xs : list A)
    (body : A -> M S unit) :
  (forall x, x ∈ xs -> preserves I (body x)) -> preserves I (for_each xs body).
Proof.
  induction xs as [|x xs IH]; simpl; intros Hbody.
  - apply preserves_ret.
  - apply preserves_bind.
    + apply Hbody, elem_of_cons; by left.
    + intros _. apply IH. intros y Hy. apply Hbody, elem_of_cons; by right.
Qed.

(** ** Shape of the per-family statistics *)

Lemma dict_get_set {V} (x k : string) (v : V) (d : list (string * V)) :
  dict_get x (dict_set k v d)
  = if decide (x = k) then Some v else dict_get x d.
Proof.
  induction d as [|[k' v'] d IH]; simpl.
  - destruct (String.eqb_spec x k); by case_decide.
  - destruct (String.eqb_spec k k') as [->|Hne]; simpl.
    + destruct (String.eqb_spec x k'); by case_decide.
    + destruct (String.eqb_spec x k') as [->|Hne']; [by case_decide | done].
Qed.

Lemma dict_get_elem {V} (k : string) (v : V) (d : list (string * V)) :
  NoDup d.*1 -> (k, v) ∈ d -> dict_get k d = Some v.
Proof.
  induction d as [|[k' v'] d IH]; simpl.
  - by intros _ ?%elem_of_nil.
  - intros [Hk' Hnd]%NoDup_cons [[= -> ->]|Hin]%elem_of_cons.
    + by rewrite String.eqb_refl.
    + destruct (String.eqb_spec k k') as [->|Hne]; [|by apply IH].
      destruct Hk'. apply list_elem_of_fmap. by exists (k', v).
Qed.

Lemma is_decimal_code (c : ascii) :
  is_decimal c = true -> (0 <= Z.of_nat (code c) - 48)%Z.
Proof.
  unfold is_decimal. intros [H1 _]%andb_prop. apply Nat.leb_le in H1. lia.
Qed.

Lemma int_digits_nonneg (s : string) (acc : Z) (b : bool) (n : Z) :
  (0 <= acc)%Z -> int_digits s acc b = Ok n -> (0 <= n)%Z.
Proof.
  revert acc b. induction s as [|c s IH]; simpl; intros acc b Hacc.
  - destruct b; [by intros [= <-] | done].
  - destruct (is_decimal c) eqn:Hc.
    + apply IH. pose proof (is_decimal_code c Hc). lia.
    + destruct (Ascii.eqb c "_" && b); [by apply IH | done].
Qed.

Lemma is_digit_not_space (c : ascii) : is_digit c = true -> is_space c = false.
Proof.
  destruct c as [b0 b1 b2 b3 b4 b5 b6 b7].
  destruct b0, b1, b2, b3, b4, b5, b6, b7; vm_compute; congruence.
Qed.

Lemma is_digit_not_sign (c : ascii) :
  is_digit c = true -> c <> "-"%char /\ c <> "+"%char.
Proof.
  destruct c as [b0 b1 b2 b3 b4 b5 b6 b7].
  destruct b0, b1, b2, b3, b4, b5, b6, b7; vm_compute; split; congruence.
Qed.

Lemma rstrip_digits (s : string) : all_chars is_digit s = true -> rstrip s = s.
Proof.
  induction s as [|c s IH]; simpl; [done|].
  intros [Hc Hs]%andb_prop. rewrite (IH Hs).
  destruct s; [|done]. by rewrite (is_digit_not_space c Hc).
Qed.

Lemma strip_digits (s : string) : all_chars is_digit s = true -> strip s = s.
Proof.
  intros Hs. unfold strip.
  assert (lstrip s = s) as ->.
  { destruct s as [|c s]; simpl in *; [done|].
    apply andb_prop in Hs as [Hc _]. by rewrite (is_digit_not_space c Hc). }
  by apply rstrip_digits.
Qed.

(** On a string of digits [int] reads no sign and strips nothing. *)
Lemma int_of_digits (s : string) : isdigit s = true -> int s = int_unsigned s.
Proof.
  destruct s as [|c s]; [done|]. unfold isdigit. intros Hd.
  unfold int. rewrite (strip_digits (String c s) Hd).
  simpl in Hd. apply andb_prop in Hd as [Hc _].
  destruct (is_digit_not_sign c Hc) as [Hm Hp].
  destruct c as [[] [] [] [] [] [] [] []]; try done.
Qed.

Lemma int_unsigned_ok (s : string) (n : Z) :
  int_unsigned s = Ok n
  <-> int_digits s 0 false = Ok n /\ (digit_count s <= int_max_str_digits)%Z.
Proof.
  unfold int_unsigned. destruct (int_digits s 0 false) as [m|e]; simpl.
  - destruct (Z.ltb_spec int_max_str_digits (digit_count s)).
    + split; [done | intros [_ ?]; lia].
    + split; [by intros [= ->] | by intros [[= ->] _]].
  - split; [done | by intros [? _]].
Qed.

(** What the conversion of a count does: a string becomes an integer
    that is not negative, anything else is kept. *)
Lemma to_count_spec (x v : pyval) :
  to_count x = Ok v ->
  match x with
  | PStr s => exists n : Z, v = PInt n /\ (0 <= n)%Z
                            /\ (isdigit s = false -> n = 0%Z)
  | _ => v = x
  end.
Proof.
  destruct x as [| | | |s| |]; simpl; try by intros [= <-].
  destruct (isdigit s) eqn:Hd.
  - destruct (int s) as [n|e] eqn:Hint; simpl; [|done]. intros [= <-].
    exists n. split; [done|]. split; [|done].
    rewrite (int_of_digits s Hd) in Hint.
    apply int_unsigned_ok in Hint as [Hn _].
    by eapply int_digits_nonneg in Hn.
  - intros [= <-]. by exists 0%Z.
Qed.

Lemma to_count_clean (x v : pyval) : to_count x = Ok v -> is_string v = false.
Proof.
  intros H. pose proof (to_count_spec x v H) as Hs.
  destruct x; try (by subst). by destruct Hs as (n & -> & _).
Qed.

Section stats_shape.
Variable families : list string.

Lemma shape_nil : shape families [].
Proof. split; [apply NoDup_nil_2 | constructor]. Qed.

Lemma shape_set (f : string) (st : stats) (r : results) :
  f ∈ families -> clean st -> shape families r ->
  shape families (dict_set f st r).
Proof.
  intros Hf Hst [Hnd Hall]. split.
  - by apply dict_set_NoDup.
  - by apply dict_set_Forall.
Qed.

Lemma clean_zero : clean zero_stats.
Proof. by split. Qed.

Lemma match_family_shape (afi_safi afi_name : pyval) (f : string) :
  f ∈ families -> preserves (shape families) (match_family afi_safi afi_name f).
Proof.
  intros Hf. unfold match_family.
  destruct (is_str _ afi_name); [|apply preserves_ret].
  apply preserves_bind_lift; intros a0 _.
  apply preserves_bind_lift; intros r0 _.
  apply preserves_bind_lift; intros a1 Ha.
  apply preserves_bind_lift; intros r1 Hr.
  apply preserves_modify. intros r Hshape. apply shape_set; [done| |done].
  split; simpl; by eapply to_count_clean.
Qed.

Lemma process_item_shape (item : pyval) :
  preserves (shape families) (process_item families item).
Proof.
  unfold process_item, process_update, process_value, process_afi_safi.
  repeat first
    [ apply preserves_ret
    | apply preserves_bind_lift; intros ? _
    | apply preserves_for_each; intros ? ?
    | by apply match_family_shape
    | match goal with |- preserves _ (if ?b then _ else _) => destruct b end ].
Qed.

Lemma fill_missing_shape : preserves (shape families) (fill_missing families).
Proof.
  apply preserves_for_each; intros f Hf. apply preserves_modify.
  intros r Hr. destruct (dict_mem f r); [done|].
  apply shape_set; [done | apply clean_zero | done].
Qed.

Lemma fill_zeros_shape : preserves (shape families) (fill_zeros families).
Proof.
  apply preserves_for_each; intros f Hf. apply preserves_modify.
  intros r Hr. apply shape_set; [done | apply clean_zero | done].
Qed.

Lemma parse_response_shape (data : pyval) :
  preserves (shape families) (parse_response families data).
Proof.
  unfold parse_response. apply preserves_bind_lift; intros items _.
  apply preserves_bind; [|intros _; apply fill_missing_shape].
  apply preserves_for_each; intros item _. apply process_item_shape.
Qed.
End stats_shape.

(** After [fill_missing] every family is a key, and keys are kept. *)
Lemma fill_missing_keys (l : list string) (r : results) (f : string) :
  f ∈ l \/ f ∈ r.*1 -> f ∈ ((fill_missing l r).1).*1.
Proof.
  unfold fill_missing. revert r. induction l as [|x l IH]; intros r; simpl.
  - by intros [?%elem_of_nil|?].
  - unfold bind, modify. intros H. apply IH.
    destruct (dict_mem x r) eqn:Hx.
    + apply dict_mem_keys in Hx.
      destruct H as [[->|H]%elem_of_cons|H]; auto.
    + rewrite dict_set_keys.
      destruct H as [[->|H]%elem_of_cons|H]; auto.
Qed.

(** After [fill_zeros] every listed family maps to zeros; the other
    entries are as before. *)
Lemma fill_zeros_get (l : list string) (r : results) (f : string) :
  dict_get f (fill_zeros l r).1
  = if decide (f ∈ l) then Some zero_stats else dict_get f r.
Proof.
  unfold fill_zeros. revert r.
  induction l as [|x l IH]; intros r; cbn [for_each].
  - destruct (decide (f ∈ [])) as [H|H]; [by apply elem_of_nil in H | done].
  - unfold bind at 1, modify at 1. rewrite IH, dict_get_set.
    repeat case_decide; try done; set_solver.
Qed.

Lemma fill_zeros_keys (l : list string) (r : results) (f : string) :
  f ∈ l -> f ∈ ((fill_zeros l r).1).*1.
Proof.
  intros Hf. apply dict_mem_keys. unfold dict_mem.
  rewrite fill_zeros_get. by rewrite decide_True.
Qed.

Lemma stats_by_family_inv (protocol : string) (families : list string)
    (data : pyval) :
  let r := get_protocol_stats_by_family protocol families data in
  shape families r
  /\ (forall f, f ∈ families -> f ∈ r.*1)
  /\ (unusable protocol families data ->
      forall f, f ∈ families -> dict_get f r = Some zero_stats).
Proof.
  unfold get_protocol_stats_by_family, unusable.
  pose proof (fill_zeros_shape families [] (shape_nil families)) as Hz.
  pose proof (parse_response_shape families data [] (shape_nil families)) as Hp.
  assert (forall r0, forall f, f ∈ families ->
            dict_get f (fill_zeros families r0).1 = Some zero_stats) as Hzero.
  { intros r0 f Hf. rewrite fill_zeros_get. by rewrite decide_True. }
  destruct (String.eqb (lower protocol) "bgp") eqn:Hbgp; simpl;
    [destruct (truthy data) eqn:Hdata; simpl|].
  - unfold try_except.
    destruct (parse_response families data []) as [r1 [[]|e]] eqn:Hparse;
      simpl in *.
    + split; [done|]. split.
      * intros f Hf. unfold parse_response, bind, lift in Hparse.
        destruct (py_iter data) as [items|]; [|done].
        destruct (for_each items (process_item families) [])
          as [r2 [[]|]] eqn:Hloop; [|done].
        pose proof (fill_missing_keys families r2 f (or_introl Hf)) as Hk.
        by rewrite Hparse in Hk.
      * intros [?|[?|[e He]]]; done.
    + split; [by apply fill_zeros_shape|]. split.
      * intros f Hf. by apply fill_zeros_keys.
      * intros _. apply Hzero.
  - split; [done|]. split; [intros f Hf; by apply fill_zeros_keys|].
    intros _. apply Hzero.
  - split; [done|]. split; [intros f Hf; by apply fill_zeros_keys|].
    intros _. apply Hzero.
Qed.

(** The statistics of a requested family always exist. *)
Lemma stats_by_family_nonempty (protocol : string) (families : list string)
    (data : pyval) :
  families <> [] -> get_protocol_stats_by_family protocol families data <> [].
Proof.
  intros Hne Hnil. destruct families as [|f l]; [done|].
  destruct (stats_by_family_inv protocol (f :: l) data) as (_ & Hk & _).
  specialize (Hk f). rewrite Hnil in Hk.
  apply elem_of_nil in Hk; [done | apply elem_of_cons; by left].
Qed.

Lemma stats_by_family_empty (protocol : string) (data : pyval) :
  get_protocol_stats_by_family protocol [] data = [].
Proof.
  destruct (stats_by_family_inv protocol [] data) as ([_ Hall] & _).
  destruct (get_protocol_stats_by_family protocol [] data) as [|e r]; [done|].
  apply Forall_cons in Hall as [[Hin _] _]. by apply elem_of_nil in Hin.
Qed.

(** Keys and entries of the statistics. *)
Lemma stats_by_family_spec (protocol : string)
    (families : list string) (data : pyval) :
  let r := get_protocol_stats_by_family protocol families data in
  NoDup r.*1
  /\ (forall f, f ∈ r.*1 <-> f ∈ families)
  /\ (forall f st, unusable protocol families data -> (f, st) ∈ r ->
        st = zero_stats).
Proof.
  intros r.
  destruct (stats_by_family_inv protocol families data)
    as ([Hnd Hall] & Hkeys & Hzero).
  fold r in Hnd, Hall, Hkeys, Hzero.
  rewrite Forall_forall in Hall.
  split; [done|]. split.
  - intros f. split; [|apply Hkeys].
    intros [[f' st] [-> Hin]]%list_elem_of_fmap. by apply Hall in Hin as [? _].
  - intros f st Hun Hin.
    pose proof (Hall _ Hin) as [Hf _]. simpl in Hf.
    specialize (Hzero Hun f Hf).
    rewrite (dict_get_elem f st r Hnd Hin) in Hzero. congruence.
Qed.









(** ** Keys of [routeStats] *)

Lemma list_ascii_app (s t : string) :
  list_ascii_of_string (s +:+ t)
  = list_ascii_of_string s ++ list_ascii_of_string t.
Proof. induction s as [|c s IH]; simpl; [done | by rewrite IH]. Qed.

Lemma list_ascii_inj (s t : string) :
  list_ascii_of_string s = list_ascii_of_string t -> s = t.
Proof.
  intros H. rewrite <- (string_of_list_ascii_of_string s),
    <- (string_of_list_ascii_of_string t). by rewrite H.
Qed.

Lemma backwards_app (s t : string) :
  backwards (s +:+ t) = backwards t ++ backwards s.
Proof. unfold backwards. by rewrite list_ascii_app, rev_app_distr. Qed.

Lemma backwards_inj (s t : string) : backwards s = backwards t -> s = t.
Proof.
  unfold backwards. intros H. apply list_ascii_inj.
  by rewrite <- (rev_involutive (list_ascii_of_string s)), H, rev_involutive.
Qed.

Lemma backwards_total (f p : string) :
  backwards (total_key f p)
  = backwards " Total Routes" ++ backwards (upper p) ++ backwards " "
    ++ backwards f.
Proof. unfold total_key. by rewrite !backwards_app, <- !app_assoc. Qed.

Lemma backwards_active (f p : string) :
  backwards (active_key f p)
  = backwards " Active Routes" ++ backwards (upper p) ++ backwards " "
    ++ backwards f.
Proof. unfold active_key. by rewrite !backwards_app, <- !app_assoc. Qed.

Lemma total_key_inj (f g p : string) : total_key f p = total_key g p -> f = g.
Proof.
  intros H%(f_equal backwards). rewrite !backwards_total in H.
  do 3 apply app_inv_head in H. by apply backwards_inj.
Qed.

Lemma active_key_inj (f g p : string) :
  active_key f p = active_key g p -> f = g.
Proof.
  intros H%(f_equal backwards). rewrite !backwards_active in H.
  do 3 apply app_inv_head in H. by apply backwards_inj.
Qed.

Lemma total_active_ne (f g p : string) : total_key f p <> active_key g p.
Proof.
  intros H%(f_equal backwards). rewrite backwards_total, backwards_active in H.
  vm_compute in H. discriminate H.
Qed.

Lemma total_elapsed_ne (f p : string) : total_key f p <> elapsed_key.
Proof.
  intros H%(f_equal backwards). rewrite backwards_total in H.
  vm_compute in H. discriminate H.
Qed.

Lemma active_elapsed_ne (f p : string) : active_key f p <> elapsed_key.
Proof.
  intros H%(f_equal backwards). rewrite backwards_active in H.
  vm_compute in H. discriminate H.
Qed.

(** ** One committed sample *)

Lemma dd_append_lookup (k x : string) (v : pyval) (rs : routeStats) :
  dd_append k v rs !! x
  = if decide (x = k) then Some (series rs k ++ [v]) else rs !! x.
Proof.
  unfold dd_append, series. case_decide as H.
  - subst. by rewrite lookup_insert_eq.
  - by rewrite lookup_insert_ne.
Qed.

Lemma series_dd_append (k x : string) (v : pyval) (rs : routeStats) :
  series (dd_append k v rs) x
  = if decide (x = k) then series rs k ++ [v] else series rs x.
Proof.
  unfold series at 1. rewrite dd_append_lookup. by case_decide.
Qed.

Section committed.
Variable protocol : string.

Lemma record_families_series (fs : results) (rs : routeStats) (x : string) :
  series (foldl (record_family protocol) rs fs) x
  = series rs x ++ appended protocol fs x.
Proof.
  revert rs. induction fs as [|[f st] fs IH]; intros rs; simpl.
  - by rewrite app_nil_r.
  - rewrite IH, !series_dd_append.
    pose proof (total_active_ne f f protocol).
    repeat case_decide; subst; simpl; rewrite <- ?app_assoc; done.
Qed.

Lemma record_families_dom (fs : results) (rs : routeStats) (x : string) :
  is_Some (foldl (record_family protocol) rs fs !! x)
  <-> is_Some (rs !! x) \/ family_key protocol fs.*1 x.
Proof.
  revert rs. induction fs as [|[f st] fs IH]; intros rs; simpl.
  - split; [auto|]. intros [?|(f & ?%elem_of_nil & _)]; done.
  - rewrite IH, !dd_append_lookup. unfold family_key. split.
    + intros [H|(g & Hg & Hx)].
      * repeat case_decide; subst; eauto.
        -- right. exists f. split; [apply elem_of_cons|]; auto.
        -- right. exists f. split; [apply elem_of_cons|]; auto.
      * right. exists g. split; [apply elem_of_cons|]; auto.
    + intros [H|(g & [->|Hg]%elem_of_cons & Hx)].
      * left. repeat case_decide; eauto.
      * left. repeat case_decide; eauto. destruct Hx; done.
      * right. eauto.
Qed.

Lemma appended_other (fs : results) (x : string) :
  ~ family_key protocol fs.*1 x -> appended protocol fs x = [].
Proof.
  induction fs as [|[f st] fs IH]; simpl; [done|]. intros Hx.
  rewrite IH.
  - repeat case_decide; try done; destruct Hx; exists f;
      (split; [apply elem_of_cons|]; auto).
  - intros (g & Hg & Hk). apply Hx. exists g.
    split; [apply elem_of_cons|]; auto.
Qed.

Lemma appended_total (fs : results) (f : string) (st : stats) :
  NoDup fs.*1 -> (f, st) ∈ fs ->
  appended protocol fs (total_key f protocol) = [total st].
Proof.
  induction fs as [|[g st'] fs IH]; simpl.
  - by intros _ ?%elem_of_nil.
  - intros [Hg Hnd]%NoDup_cons [[= -> ->]|Hin]%elem_of_cons.
    + rewrite decide_True, decide_False by auto using total_active_ne.
      rewrite appended_other; [done|].
      intros (h & Hh & [Hk|Hk]).
      * apply total_key_inj in Hk. by subst.
      * by apply total_active_ne in Hk.
    + rewrite !decide_False, IH; auto using total_active_ne.
      intros ->%total_key_inj. apply Hg, list_elem_of_fmap. by exists (g, st).
Qed.

Lemma appended_active (fs : results) (f : string) (st : stats) :
  NoDup fs.*1 -> (f, st) ∈ fs ->
  appended protocol fs (active_key f protocol) = [active st].
Proof.
  induction fs as [|[g st'] fs IH]; simpl.
  - by intros _ ?%elem_of_nil.
  - intros [Hg Hnd]%NoDup_cons [[= -> ->]|Hin]%elem_of_cons.
    + rewrite decide_False, decide_True
        by (auto; intros E; symmetry in E; by apply total_active_ne in E).
      rewrite appended_other; [done|].
      intros (h & Hh & [Hk|Hk]).
      * symmetry in Hk. by apply total_active_ne in Hk.
      * apply active_key_inj in Hk. by subst.
    + rewrite !decide_False, IH; auto.
      * intros ->%active_key_inj. apply Hg, list_elem_of_fmap.
        by exists (g, st).
      * intros E; symmetry in E; by apply total_active_ne in E.
Qed.

Lemma elapsed_not_family_key (l : list string) :
  ~ family_key protocol l elapsed_key.
Proof.
  intros (f & _ & [H|H]); symmetry in H.
  - by apply total_elapsed_ne in H.
  - by apply active_elapsed_ne in H.
Qed.

(** The sequences after the guarded block ran on statistics that are
    not empty. *)
Lemma record_sample_series (elapsed : Q) (fs : results) (rs : routeStats)
    (x : string) :
  fs <> [] ->
  series (record_sample protocol elapsed fs rs) x
  = series rs x
    ++ (if decide (x = elapsed_key) then [PFloat elapsed] else [])
    ++ appended protocol fs x.
Proof.
  intros Hne. unfold record_sample. destruct fs as [|e fs]; [done|].
  rewrite record_families_series, series_dd_append.
  case_decide; subst; by rewrite <- ?app_assoc.
Qed.

Lemma record_sample_dom (elapsed : Q) (fs : results) (rs : routeStats)
    (x : string) :
  fs <> [] ->
  is_Some (record_sample protocol elapsed fs rs !! x)
  <-> is_Some (rs !! x) \/ x = elapsed_key \/ family_key protocol fs.*1 x.
Proof.
  intros Hne. unfold record_sample. destruct fs as [|e fs]; [done|].
  rewrite record_families_dom, dd_append_lookup.
  case_decide; naive_solver.
Qed.
End committed.

Lemma record_families_other (protocol : string) (fs : results)
    (rs : routeStats) (x : string) :
  ~ family_key protocol fs.*1 x ->
  foldl (record_family protocol) rs fs !! x = rs !! x.
Proof.
  revert rs. induction fs as [|[f st] fs IH]; intros rs Hx; simpl; [done|].
  rewrite IH.
  - rewrite !dd_append_lookup.
    repeat case_decide; try done; destruct Hx; exists f;
      (split; [apply elem_of_cons|]; auto).
  - intros (g & Hg & Hk). apply Hx. exists g.
    split; [apply elem_of_cons|]; auto.
Qed.

(** ** The polling loop *)

Lemma poll_loop_foldl (protocol : string) (families : list string)
    (start_time : Q) (duration : Z) (ticks : list tick) (rs : routeStats) :
  poll_loop protocol families start_time duration ticks rs
  = foldl (poll_once protocol families start_time) rs
          (executed start_time duration ticks).
Proof.
  revert rs. induction ticks as [|t ticks IH]; intros rs; simpl; [done|].
  destruct (loop_condition start_time duration t); simpl; [apply IH | done].
Qed.

Lemma executed_elem (start_time : Q) (duration : Z) (ticks : list tick) t :
  t ∈ executed start_time duration ticks -> t ∈ ticks.
Proof.
  induction ticks as [|t' ticks IH]; simpl; [done|].
  destruct (loop_condition start_time duration t').
  - intros [->|H]%elem_of_cons; apply elem_of_cons; auto.
  - by intros ?%elem_of_nil.
Qed.

Section polling.
Variables (protocol : string) (families : list string) (start_time : Q).

Let stats_of (t : tick) : results :=
  get_protocol_stats_by_family protocol families (fetched t).

Lemma aligned_init : aligned protocol families init_routeStats.
Proof.
  unfold aligned, init_routeStats, series. split; [|split].
  - rewrite lookup_singleton_eq. eauto.
  - intros x [l Hl]. apply lookup_singleton_Some in Hl as [<- _]. by left.
  - intros x Hx. rewrite lookup_singleton_ne; [by rewrite lookup_singleton_eq|].
    intros <-. by apply elapsed_not_family_key in Hx.
Qed.

Lemma stats_of_keys (t : tick) (x : string) :
  family_key protocol (stats_of t).*1 x <-> family_key protocol families x.
Proof.
  destruct (stats_by_family_spec protocol families (fetched t))
    as (_ & Hk & _).
  unfold family_key, stats_of. split; intros (f & Hf & Hx); exists f;
    (split; [by apply Hk | done]).
Qed.

Lemma stats_of_entry (t : tick) (f : string) :
  f ∈ families -> exists st, (f, st) ∈ stats_of t.
Proof.
  destruct (stats_by_family_spec protocol families (fetched t))
    as (_ & Hk & _).
  intros [[f' st] [-> Hin]]%Hk%list_elem_of_fmap. by exists st.
Qed.

Lemma stats_of_NoDup (t : tick) : NoDup (stats_of t).*1.
Proof.
  by destruct (stats_by_family_spec protocol families (fetched t))
    as (? & _).
Qed.

Lemma poll_once_nil (rs : routeStats) (t : tick) :
  families = [] -> poll_once protocol families start_time rs t = rs.
Proof.
  intros ->. unfold poll_once. by rewrite stats_by_family_empty.
Qed.

Lemma poll_once_elapsed (rs : routeStats) (t : tick) :
  families <> [] ->
  series (poll_once protocol families start_time rs t) elapsed_key
  = series rs elapsed_key ++ [PFloat (sample_clock t - start_time)].
Proof.
  intros Hne. unfold poll_once.
  rewrite record_sample_series by by apply stats_by_family_nonempty.
  rewrite decide_True by done.
  rewrite appended_other by apply elapsed_not_family_key.
  by rewrite app_nil_r.
Qed.

Lemma poll_once_family (rs : routeStats) (t : tick) (f : string) (st : stats) :
  (f, st) ∈ stats_of t ->
  let rs' := poll_once protocol families start_time rs t in
  series rs' (total_key f protocol)
  = series rs (total_key f protocol) ++ [total st]
  /\ series rs' (active_key f protocol)
     = series rs (active_key f protocol) ++ [active st].
Proof.
  intros Hin rs'. subst rs'. unfold poll_once. fold (stats_of t).
  assert (stats_of t <> []) as Hne by (intros E; rewrite E in Hin;
                                       by apply elem_of_nil in Hin).
  rewrite !record_sample_series by done.
  rewrite decide_False by apply total_elapsed_ne.
  rewrite decide_False by apply active_elapsed_ne.
  rewrite (appended_total protocol _ f st), (appended_active protocol _ f st)
    by (done || apply stats_of_NoDup).
  done.
Qed.

Lemma poll_once_other (rs : routeStats) (t : tick) (x : string) :
  x <> elapsed_key -> ~ family_key protocol families x ->
  poll_once protocol families start_time rs t !! x = rs !! x.
Proof.
  intros Hx Hk. unfold poll_once, record_sample. fold (stats_of t).
  destruct (stats_of t) as [|e fs] eqn:E; [done|].
  rewrite record_families_other.
  - rewrite dd_append_lookup. by rewrite decide_False.
  - rewrite <- E. by rewrite stats_of_keys.
Qed.

Lemma poll_once_length (rs : routeStats) (t : tick) (x : string) :
  families <> [] ->
  x = elapsed_key \/ family_key protocol families x ->
  length (series (poll_once protocol families start_time rs t) x)
  = S (length (series rs x)).
Proof.
  intros Hne [->|(f & Hf & Hx)].
  - rewrite poll_once_elapsed by done. rewrite length_app. simpl. lia.
  - destruct (stats_of_entry t f Hf) as [st Hst].
    destruct (poll_once_family rs t f st Hst) as [Ht Ha].
    destruct Hx as [->| ->]; [rewrite Ht | rewrite Ha];
      rewrite length_app; simpl; lia.
Qed.

Lemma poll_once_dom (rs : routeStats) (t : tick) (x : string) :
  families <> [] ->
  is_Some (poll_once protocol families start_time rs t !! x)
  <-> is_Some (rs !! x) \/ x = elapsed_key \/ family_key protocol families x.
Proof.
  intros Hne. unfold poll_once.
  rewrite record_sample_dom by by apply stats_by_family_nonempty.
  fold (stats_of t). by rewrite stats_of_keys.
Qed.

Lemma poll_once_aligned (rs : routeStats) (t : tick) :
  aligned protocol families rs -> aligned protocol families (poll_once protocol families start_time rs t).
Proof.
  intros (Hel & Hdom & Hlen).
  destruct (decide (families = [])) as [Hnil|Hne].
  { by rewrite poll_once_nil. }
  split; [|split].
  - apply poll_once_dom; auto.
  - intros x [H|H]%poll_once_dom; auto.
  - intros x Hx. rewrite !poll_once_length by auto. by rewrite Hlen.
Qed.

Lemma polls_aligned (rs : routeStats) (ts : list tick) :
  aligned protocol families rs ->
  let rs' := foldl (poll_once protocol families start_time) rs ts in
  aligned protocol families rs'
  /\ length (series rs' elapsed_key)
     = length (series rs elapsed_key)
       + (if decide (families = []) then 0 else length ts).
Proof.
  revert rs. induction ts as [|t ts IH]; intros rs Hrs; simpl.
  - split; [done|]. case_decide; lia.
  - destruct (IH _ (poll_once_aligned rs t Hrs)) as [Hal Hlen].
    split; [done|]. rewrite Hlen. case_decide as E.
    + rewrite poll_once_nil by done. lia.
    + rewrite poll_once_length by auto. lia.
Qed.
End polling.

Lemma poll_loop_aligned (protocol : string) (families : list string)
    (start_time : Q) (duration : Z) (ticks : list tick) :
  let rs := poll_loop protocol families start_time duration ticks
                      init_routeStats in
  aligned protocol families rs
  /\ length (series rs elapsed_key)
     = (if decide (families = []) then 0
        else length (executed start_time duration ticks)).
Proof.
  intros rs. subst rs. rewrite poll_loop_foldl.
  destruct (polls_aligned protocol families start_time init_routeStats
              (executed start_time duration ticks)
              (aligned_init protocol families)) as [Hal Hlen].
  split; [done|]. by rewrite Hlen.
Qed.

Lemma series_lookup (rs : routeStats) (k : string) (l : list pyval) :
  rs !! k = Some l -> series rs k = l.
Proof. unfold series. by intros ->. Qed.

(** C6.  At the end of every run of the polling loop of a device, and so
    after each of its rounds, every sequence recorded for the device,
    whatever its key, is as long as the elapsed-time sequence; and its
    length is the number of rounds the loop ran (none of which is skipped
    when families are requested), so that each committed round adds one
    entry to each sequence. *)
Theorem series_aligned (protocol : string) (families : list string)
    (start_time : Q) (duration : Z) (ticks : list tick) :
  let rs := poll_loop protocol families start_time duration ticks
                      init_routeStats in
  forall k l, rs !! k = Some l ->
    length l = length (series rs elapsed_key)
    /\ length l = (if decide (families = []) then 0
                   else length (executed start_time duration ticks)).
Proof.
  intros rs k l Hk.
  destruct (poll_loop_aligned protocol families start_time duration ticks)
    as [(Hel & Hdom & Hlen) Hn].
  fold rs in Hel, Hdom, Hlen, Hn.
  assert (length l = length (series rs elapsed_key)) as E.
  { rewrite <- (series_lookup rs k l Hk).
    destruct (Hdom k) as [->|Hf]; [by rewrite Hk | done | by apply Hlen]. }
  split; [done | by rewrite E].
Qed.

Lemma series_aligned_witness :
  let t := {| stop_threads := false; guard_clock := 0; sample_clock := 0;
              fetched := PNone |} in
  let rs := poll_loop "bgp" ["ipv4-unicast"] 0 10 [t; t] init_routeStats in
  rs !! total_key "ipv4-unicast" "bgp" = Some [PInt 0; PInt 0]
  /\ length [PInt 0; PInt 0] = length (series rs elapsed_key)
  /\ length [PInt 0; PInt 0]
     = (if decide (["ipv4-unicast"] = []) then 0
        else length (executed 0 10 [t; t])).
Proof.
  intros t rs. split; [by vm_compute|].
  apply (series_aligned "bgp" ["ipv4-unicast"] 0 10 [t; t]
                        (total_key "ipv4-unicast" "bgp")).
  by vm_compute.
Defined.

(** C2 as stated fails: a round whose fetch failed appends the elapsed
    time and a zero to the total and the active sequence. *)
Lemma failed_fetch_appends :
  let t := {| stop_threads := false; guard_clock := 0; sample_clock := 0;
              fetched := PNone |} in
  let rs := poll_once "bgp" ["ipv4-unicast"] 0 init_routeStats t in
  rs !! "Elapsed Time" = Some [PFloat 0]
  /\ rs !! "ipv4-unicast BGP Total Routes" = Some [PInt 0]
  /\ rs !! "ipv4-unicast BGP Active Routes" = Some [PInt 0]
  /\ rs <> init_routeStats.
Proof.
  repeat split; by vm_compute.
Qed.

Lemma failed_fetch_zero (protocol : string) (families : list string)
    (t : tick) (f : string) (st : stats) :
  fetched t = PNone ->
  (f, st) ∈ get_protocol_stats_by_family protocol families (fetched t) ->
  st = zero_stats.
Proof.
  intros Hfail Hin.
  destruct (stats_by_family_spec protocol families (fetched t))
    as (_ & _ & Hzero).
  apply (Hzero f st); [|done]. right; left. by rewrite Hfail.
Qed.

Lemma poll_once_failed (protocol : string) (families : list string)
    (start_time : Q) (rs : routeStats) (t : tick) (f : string) :
  fetched t = PNone -> f ∈ families ->
  let rs' := poll_once protocol families start_time rs t in
  series rs' (total_key f protocol)
  = series rs (total_key f protocol) ++ [PInt 0]
  /\ series rs' (active_key f protocol)
     = series rs (active_key f protocol) ++ [PInt 0].
Proof.
  intros Hfail Hf.
  destruct (stats_of_entry protocol families t f Hf) as [st Hst].
  pose proof (failed_fetch_zero protocol families t f st Hfail Hst) as ->.
  apply (poll_once_family protocol families start_time rs t f zero_stats Hst).
Qed.

(** C2, as amended.  A round whose fetch failed is committed like any
    other when families are requested: the elapsed time is appended to
    the elapsed-time sequence and a 0 to the total and to the active
    sequence of every requested family, and no other key changes; with
    an empty family list the round appends nothing at all.  So a round
    commits one entry to every sequence or none to any. *)
Theorem failed_fetch_commits_zeros (protocol : string)
    (families : list string) (start_time : Q) (rs : routeStats) (t : tick) :
  fetched t = PNone -> families <> [] ->
  let rs' := poll_once protocol families start_time rs t in
  series rs' elapsed_key
  = series rs elapsed_key ++ [PFloat (sample_clock t - start_time)]
  /\ (forall f, f ∈ families ->
        series rs' (total_key f protocol)
        = series rs (total_key f protocol) ++ [PInt 0]
        /\ series rs' (active_key f protocol)
           = series rs (active_key f protocol) ++ [PInt 0])
  /\ (forall x, x <> elapsed_key -> ~ family_key protocol families x ->
        rs' !! x = rs !! x)
  /\ poll_once protocol [] start_time rs t = rs.
Proof.
  intros Hfail Hne rs'. split; [|split; [|split]].
  - by apply poll_once_elapsed.
  - intros f Hf. by apply poll_once_failed.
  - intros x Hx Hk. by apply poll_once_other.
  - by apply poll_once_nil.
Qed.

Lemma failed_fetch_commits_zeros_witness :
  let t := {| stop_threads := false; guard_clock := 0; sample_clock := 1;
              fetched := PNone |} in
  series (poll_once "bgp" ["ipv4-unicast"] 0 init_routeStats t)
         (total_key "ipv4-unicast" "bgp")
  = series init_routeStats (total_key "ipv4-unicast" "bgp") ++ [PInt 0].
Proof.
  intros t.
  refine (proj1 (proj1 (proj2 (failed_fetch_commits_zeros
    "bgp" ["ipv4-unicast"] 0 init_routeStats t _ _)) "ipv4-unicast" _)).
  - reflexivity.
  - discriminate.
  - apply elem_of_cons. by left.
Defined.

(** ** A device whose fetch always fails *)

Lemma polls_failed_series (protocol : string) (families : list string)
    (start_time : Q) (ts : list tick) (rs : routeStats) (f : string) :
  (forall t, t ∈ ts -> fetched t = PNone) -> f ∈ families ->
  let rs' := foldl (poll_once protocol families start_time) rs ts in
  series rs' (total_key f protocol)
  = series rs (total_key f protocol) ++ replicate (length ts) (PInt 0)
  /\ series rs' (active_key f protocol)
     = series rs (active_key f protocol) ++ replicate (length ts) (PInt 0).
Proof.
  intros Hfail Hf. revert rs.
  induction ts as [|t ts IH]; intros rs; simpl.
  - by rewrite !app_nil_r.
  - destruct IH with (rs := poll_once protocol families start_time rs t)
      as [Ht Ha].
    { intros t' Ht'. apply Hfail, elem_of_cons. by right. }
    destruct (poll_once_failed protocol families start_time rs t f)
      as [Ht1 Ha1]; [apply Hfail, elem_of_cons; by left | done |].
    rewrite Ht, Ha, Ht1, Ha1, <- !app_assoc. done.
Qed.

Lemma size_two_keys (rs : routeStats) (k1 k2 : string) :
  k1 <> k2 -> is_Some (rs !! k1) -> is_Some (rs !! k2) -> 1 < size rs.
Proof.
  intros Hne [l1 H1] [l2 H2].
  rewrite <- (insert_id rs k1 l1 H1), <- (insert_delete_eq rs).
  rewrite map_size_insert_None by apply lookup_delete_eq.
  assert (size (delete k1 rs) <> 0); [|lia].
  apply (map_size_ne_0_lookup_2 _ k2). rewrite lookup_delete_ne by done. eauto.
Qed.

Lemma series_nonempty_lookup (rs : routeStats) (k : string) :
  0 < length (series rs k) -> is_Some (rs !! k).
Proof.
  unfold series. destruct (rs !! k); simpl; [eauto | lia].
Qed.

Lemma valid_targets_elem (targets : list string) (data : rtrData)
    (target : string) :
  target ∈ valid_targets targets data
  <-> target ∈ targets /\ has_data data target = true.
Proof.
  unfold valid_targets. by rewrite !list_elem_of_In, filter_In.
Qed.

Lemma find_crossing_empty (start_value end_value : Z) :
  find_crossing [] [] start_value end_value = Ok (NotFound None None).
Proof.
  unfold find_crossing, find_indexes.
  by destruct (start_value <? end_value)%Z.
Qed.

Lemma map_each_cons {S A B} (x : A) (xs : list A) (body : A -> M S B) (s : S) :
  map_each (x :: xs) body s
  = match body x s with
    | (s1, Ok y) =>
        match map_each xs body s1 with
        | (s2, Ok ys) => (s2, Ok (y :: ys))
        | (s2, Raise e) => (s2, Raise e)
        end
    | (s1, Raise e) => (s1, Raise e)
    end.
Proof.
  simpl. unfold bind, ret. destruct (body x s) as [s1 [y|e]]; [|done].
  by destruct (map_each xs body s1) as [s2 [ys|e]].
Qed.

(** The targets of the reports are the targets the scan ran on. *)
Lemma map_each_tagged {S A B} (xs : list A) (body : A -> M S B) (s s' : S)
    (ys : list (A * B)) :
  map_each xs (fun x => let* y := body x in ret (x, y)) s = (s', Ok ys) ->
  ys.*1 = xs.
Proof.
  revert s s' ys. induction xs as [|x xs IH]; intros s s' ys.
  - simpl. unfold ret. by intros [= _ <-].
  - rewrite map_each_cons. unfold bind at 1, ret at 1.
    destruct (body x s) as [s1 [y|e]]; [|done].
    destruct (map_each xs _ s1) as [s2 [ys'|e]] eqn:E; [|done].
    intros [= _ <-]. rewrite fmap_cons. f_equal. by eapply IH.
Qed.

Lemma main_convergence_targets (protocol : string)
    (targets families : list string) (thresholds : option (list Z * list Z))
    (data data' : rtrData) reports (target : string) :
  main_convergence protocol targets families thresholds data
  = (data', Reports (Ok reports)) ->
  target ∈ reports.*1 -> target ∈ valid_targets targets data.
Proof.
  unfold main_convergence.
  destruct (valid_targets targets data) as [|v valid] eqn:Ev; [done|].
  assert ((data, Reports (Ok []))
          = (data', Reports (Ok reports)) -> target ∈ reports.*1 ->
          target ∈ v :: valid) as Hnone.
  { intros [= _ <-]. by intros ?%elem_of_nil. }
  destruct thresholds as [[[|sv0 sv] [|ev0 ev]]|]; try done.
  destruct (map_each (v :: valid) _ data) as [d r] eqn:E.
  intros [= _ ->]. apply map_each_tagged in E. by rewrite E.
Qed.

(** C4 as stated fails: a device whose only fetch failed ends the run
    with one recorded sample and is kept among the valid targets, the
    ones the convergence scan runs on. *)
Lemma failing_device_is_valid :
  let t := {| stop_threads := false; guard_clock := 0; sample_clock := 0;
              fetched := PNone |} in
  let data := collect_route_data "r1" "bgp" ["ipv4-unicast"] 0 10 [t] ∅ in
  (exists rs, data !! "r1" = Some rs
              /\ rs !! "Elapsed Time" = Some [PFloat 0]
              /\ rs !! "ipv4-unicast BGP Total Routes" = Some [PInt 0])
  /\ valid_targets ["r1"] data = ["r1"].
Proof.
  split; [|by vm_compute].
  eexists. split; [apply lookup_insert_eq|]. split; by vm_compute.
Qed.

(** C4, as amended.  A device whose fetch fails at every round, with
    families requested, ends the run with one sample per round the loop
    ran: that many elapsed times and that many zeros under the total and
    the active key of every family.  It is reported as without data, and
    left out of the valid targets, exactly when the loop ran no round; the
    convergence scan reports on valid targets only.  The scan of an empty
    series returns, with both indexes missing. *)
Theorem failing_device_samples (target protocol : string)
    (families : list string) (start_time : Q) (duration : Z)
    (ticks : list tick) (data_dict : rtrData) :
  families <> [] ->
  (forall t, t ∈ ticks -> fetched t = PNone) ->
  let data := collect_route_data target protocol families start_time
                                 duration ticks data_dict in
  let n := length (executed start_time duration ticks) in
  (exists rs, data !! target = Some rs
     /\ length (series rs elapsed_key) = n
     /\ (forall f, f ∈ families ->
           series rs (total_key f protocol) = replicate n (PInt 0)
           /\ series rs (active_key f protocol) = replicate n (PInt 0)))
  /\ (has_data data target = true <-> 0 < n)
  /\ (forall targets, target ∈ valid_targets targets data
                      <-> target ∈ targets /\ 0 < n)
  /\ (forall targets thresholds data' reports,
        main_convergence protocol targets families thresholds data
        = (data', Reports (Ok reports)) ->
        target ∈ reports.*1 -> 0 < n)
  /\ (forall start_value end_value,
        find_crossing [] [] start_value end_value = Ok (NotFound None None)).
Proof.
  intros Hne Hfail data n.
  set (rs := poll_loop protocol families start_time duration ticks
                       init_routeStats).
  assert (data !! target = Some rs) as Hrs by apply lookup_insert_eq.
  destruct (poll_loop_aligned protocol families start_time duration ticks)
    as [(Hel & Hdom & Hlen) Hn].
  fold rs in Hel, Hdom, Hlen, Hn. rewrite decide_False in Hn by done.
  fold n in Hn.
  assert (forall f, f ∈ families ->
            series rs (total_key f protocol) = replicate n (PInt 0)
            /\ series rs (active_key f protocol) = replicate n (PInt 0)) as Hz.
  { intros f Hf. unfold rs. rewrite poll_loop_foldl.
    destruct (polls_failed_series protocol families start_time
                (executed start_time duration ticks) init_routeStats f)
      as [Ht Ha]; [|done|].
    - intros t Ht. by eapply Hfail, executed_elem.
    - rewrite Ht, Ha. unfold series, init_routeStats.
      rewrite !lookup_singleton_ne
        by (intros E; symmetry in E;
            (by apply total_elapsed_ne in E)
            || (by apply active_elapsed_ne in E)).
      done. }
  assert (has_data data target = true <-> 0 < n) as Hdata.
  { unfold has_data. rewrite Hrs. rewrite Nat.ltb_lt. split.
    - intros Hsize. destruct (decide (n = 0)) as [Hn0|]; [|lia].
      assert (rs = init_routeStats) as E.
      { unfold rs. rewrite poll_loop_foldl.
        unfold n in Hn0. apply length_zero_iff_nil in Hn0. by rewrite Hn0. }
      rewrite E in Hsize. unfold init_routeStats in Hsize.
      rewrite map_size_singleton in Hsize. lia.
    - intros Hpos. destruct families as [|f l]; [done|].
      destruct (Hz f) as [Ht _]; [apply elem_of_cons; by left|].
      apply (size_two_keys rs elapsed_key (total_key f protocol)).
      + intros E. symmetry in E. by apply total_elapsed_ne in E.
      + done.
      + apply series_nonempty_lookup. rewrite Ht, length_replicate. done. }
  split; [by exists rs|]. split; [done|]. split; [|split].
  - intros targets. by rewrite valid_targets_elem, Hdata.
  - intros targets thresholds data' reports Hrun Hin.
    eapply main_convergence_targets in Hin; [|done].
    apply valid_targets_elem in Hin as [_ Hin]. by apply Hdata.
  - apply find_crossing_empty.
Qed.

Lemma failing_device_samples_witness :
  let t := {| stop_threads := false; guard_clock := 0; sample_clock := 0;
              fetched := PNone |} in
  has_data (collect_route_data "r1" "bgp" ["ipv4-unicast"] 0 10 [t; t] ∅) "r1"
  = true
  <-> 0 < length (executed 0 10 [t; t]).
Proof.
  intros t.
  refine (proj1 (proj2 (failing_device_samples "r1" "bgp" ["ipv4-unicast"]
                          0 10 [t; t] ∅ _ _))).
  - discriminate.
  - intros t' Ht'. apply elem_of_cons in Ht' as [->|Ht']; [reflexivity|].
    apply elem_of_cons in Ht' as [->|Ht']; [reflexivity|].
    by apply elem_of_nil in Ht'.
Defined.

(** ** Order of the elapsed times *)

Lemma polls_elapsed (protocol : string) (families : list string)
    (start_time : Q) (ts : list tick) (rs : routeStats) :
  families <> [] ->
  series (foldl (poll_once protocol families start_time) rs ts) elapsed_key
  = series rs elapsed_key
    ++ floats ((fun t => sample_clock t - start_time)%Q <$> ts).
Proof.
  intros Hne. revert rs. induction ts as [|t ts IH]; intros rs; simpl.
  - by rewrite app_nil_r.
  - rewrite IH, poll_once_elapsed by done. by rewrite <- app_assoc.
Qed.

Lemma executed_sorted (start_time : Q) (duration : Z) (ticks : list tick) :
  StronglySorted Qlt (sample_clock <$> ticks) ->
  StronglySorted Qlt
    ((fun t => sample_clock t - start_time)%Q
       <$> executed start_time duration ticks).
Proof.
  induction ticks as [|t ticks IH]; simpl; [constructor|].
  intros [Hall Hs]%StronglySorted_cons.
  destruct (loop_condition start_time duration t); [|constructor].
  simpl. apply StronglySorted_cons. split; [|by apply IH].
  rewrite Forall_fmap, Forall_forall. intros t' Ht'. simpl.
  apply Qplus_lt_l.
  rewrite Forall_fmap, Forall_forall in Hall.
  by eapply Hall, executed_elem.
Qed.

(** C8.  The elapsed-time sequence that the polling loop of a device
    records holds, in the order of the rounds, the clock reading of each
    round the loop ran less the start time (nothing when no family is
    requested, as no round then records anything): each round appends
    its own elapsed time at the end.  When the clock readings taken in
    the successive rounds strictly increase, that sequence is strictly
    increasing. *)
Theorem elapsed_strictly_increasing (protocol : string)
    (families : list string) (start_time : Q) (duration : Z)
    (ticks : list tick) :
  let rounds := if decide (families = []) then []
                else executed start_time duration ticks in
  let qs := (fun t => sample_clock t - start_time)%Q <$> rounds in
  poll_loop protocol families start_time duration ticks init_routeStats
    !! elapsed_key = Some (floats qs)
  /\ (StronglySorted Qlt (sample_clock <$> ticks) -> StronglySorted Qlt qs)
  /\ (forall (rs : routeStats) (t : tick),
        families <> [] ->
        series (poll_once protocol families start_time rs t) elapsed_key
        = series rs elapsed_key ++ [PFloat (sample_clock t - start_time)]).
Proof.
  intros rounds qs.
  destruct (poll_loop_aligned protocol families start_time duration ticks)
    as [([l Hl] & _) _].
  split_and!.
  - unfold qs, rounds. destruct (decide (families = [])) as [->|Hne].
    + rewrite poll_loop_foldl in *.
      assert (forall ts rs,
                foldl (poll_once protocol [] start_time) rs ts = rs) as E.
      { induction ts as [|t ts IH]; intros rs; simpl; [done|].
        by rewrite poll_once_nil, IH. }
      rewrite E. apply lookup_singleton_eq.
    + rewrite Hl. f_equal. apply series_lookup in Hl. rewrite <- Hl.
      rewrite poll_loop_foldl, polls_elapsed by done.
      unfold series, init_routeStats. by rewrite lookup_singleton_eq.
  - intros Hclock. unfold qs, rounds. destruct (decide (families = []));
      [constructor | by apply executed_sorted].
  - intros rs t Hne. by apply poll_once_elapsed.
Qed.

Lemma elapsed_strictly_increasing_witness :
  let t1 := {| stop_threads := false; guard_clock := 1; sample_clock := 1;
               fetched := PNone |} in
  let t2 := {| stop_threads := false; guard_clock := 2; sample_clock := 3;
               fetched := PNone |} in
  poll_loop "bgp" ["ipv4-unicast"] 0 10 [t1; t2] init_routeStats
    !! elapsed_key = Some (floats [1 - 0; 3 - 0]%Q)
  /\ StronglySorted Qlt [1 - 0; 3 - 0]%Q.
Proof.
  intros t1 t2.
  pose proof (elapsed_strictly_increasing "bgp" ["ipv4-unicast"] 0 10
                [t1; t2]) as H.
  destruct H as (H1 & H2 & _).
  split; [exact H1 | apply H2].
  simpl. repeat constructor.
Defined.

(** ** The convergence scan *)

(** On a series of integers the index search is the search for the first
    element with the property. *)
Lemma first_index_ints (p : pyval -> result bool) (P : Z -> Prop)
    `{!forall z, Decision (P z)} (counts : list Z) (i0 : nat) :
  (forall z, p (PInt z) = Ok (bool_decide (P z))) ->
  first_index p (ints counts) i0
  = Ok ((fun hit => i0 + hit.1) <$> list_find P counts).
Proof.
  intros Hp. revert i0. induction counts as [|z counts IH]; intros i0; simpl.
  - done.
  - rewrite Hp. simpl. case_decide as Hz.
    + rewrite bool_decide_eq_true_2 by done. simpl. by rewrite Nat.add_0_r.
    + rewrite bool_decide_eq_false_2 by done. rewrite IH.
      destruct (list_find P counts) as [[i x]|]; simpl; [|done].
      do 2 f_equal. lia.
Qed.

Lemma py_gt_ints (z v : Z) : py_gt (PInt z) (PInt v) = Ok (bool_decide (v < z)%Z).
Proof.
  unfold py_gt; simpl. f_equal.
  destruct (Z.ltb_spec v z);
    [by rewrite bool_decide_eq_true_2 | rewrite bool_decide_eq_false_2; [done|lia]].
Qed.

Lemma py_ge_ints (z v : Z) : py_ge (PInt z) (PInt v) = Ok (bool_decide (v <= z)%Z).
Proof.
  unfold py_ge; simpl. f_equal.
  destruct (Z.leb_spec v z);
    [by rewrite bool_decide_eq_true_2 | rewrite bool_decide_eq_false_2; [done|lia]].
Qed.

Lemma step_back_pred (i : nat) : step_back i = Nat.max 0 (i - 1).
Proof. unfold step_back. lia. Qed.

Lemma find_indexes_increasing (counts : list Z) (start_value end_value : Z) :
  (start_value < end_value)%Z ->
  find_indexes (ints counts) start_value end_value
  = Ok ((fun hit => Nat.max 0 (hit.1 - 1))
          <$> list_find (fun v => start_value < v)%Z counts,
        fst <$> list_find (fun v => end_value <= v)%Z counts).
Proof.
  intros Hlt. unfold find_indexes.
  rewrite (proj2 (Z.ltb_lt _ _) Hlt).
  rewrite (first_index_ints _ (fun v => start_value < v)%Z)
    by (intros z; apply py_gt_ints).
  rewrite (first_index_ints _ (fun v => end_value <= v)%Z)
    by (intros z; apply py_ge_ints).
  destruct (list_find (fun v => start_value < v)%Z counts) as [[i x]|];
    destruct (list_find (fun v => end_value <= v)%Z counts) as [[j y]|];
    simpl; rewrite ?step_back_pred; done.
Qed.

Lemma py_index_floats (times : list Q) (i : nat) (t : Q) :
  times !! i = Some t -> py_index (floats times) i = Ok (PFloat t).
Proof.
  intros H. unfold py_index, floats.
  change (map PFloat times) with (PFloat <$> times).
  by rewrite list_lookup_fmap, H.
Qed.

Lemma Qltb_lt (a b : Q) : Qltb a b = true <-> (a < b)%Q.
Proof.
  unfold Qltb. rewrite negb_true_iff, <- not_true_iff_false, Qle_bool_iff.
  split; [apply Qnot_le_lt | apply Qlt_not_le].
Qed.

(** The rate is 0 unless the interval is positive; it is then the
    quotient when that fits a float and [OverflowError] when it does
    not.  It never divides by zero. *)
Lemma rate_spec (start_value end_value : Z) (conv_time : pyval) (x : num) :
  as_num conv_time = Ok x ->
  rate start_value end_value conv_time
  = if Qltb 0 (num_Q x)
    then if quotient_fits (end_value - start_value) x
         then Ok (PFloat (inject_Z (Z.abs (end_value - start_value))
                          / num_Q x))
         else Raise OverflowError
    else Ok (PInt 0).
Proof.
  intros Hx. unfold rate, py_gt, py_truediv. rewrite Hx.
  cbn [rbind as_num].
  assert (num_ltb (NInt 0) x = Qltb 0 (num_Q x)) as ->.
  { destruct x as [n|q]; simpl; [|done].
    destruct (Z.ltb_spec 0 n) as [H|H]; symmetry.
    - apply Qltb_lt. unfold Qlt; simpl. lia.
    - apply not_true_iff_false. rewrite Qltb_lt. unfold Qlt; simpl. lia. }
  destruct (Qltb 0 (num_Q x)) eqn:Hpos; [|done].
  apply Qltb_lt in Hpos.
  destruct x as [n|q]; cbn [num_Q quotient_fits to_float rbind] in *.
  - destruct (Z.eqb_spec n 0) as [->|Hn]; [by apply Qlt_irrefl in Hpos|].
    by rewrite Z.abs_idemp.
  - rewrite Z.abs_idemp.
    destruct (Z.abs (end_value - start_value) <? float_overflow)%Z;
      cbn [rbind]; [|done].
    destruct (Qeq_bool q 0) eqn:Hz; [|done].
    apply Qeq_bool_iff in Hz. rewrite Hz in Hpos.
    by apply Qlt_irrefl in Hpos.
Qed.

(** C1.  For a rising threshold pair, on every series of integer counts
    with its elapsed times, the scan takes as start index [max(0, i - 1)]
    for the first [i] whose count exceeds the start value and as end
    index the first [j] whose count reaches the end value, without
    stepping back, and reports which index is missing when one is.
    With both indexes it reports them with the two times, their
    difference and the rate; the one exception it can raise then is the
    [OverflowError] of the division, which takes thresholds that are
    further apart than a float can hold.  On counts 5, 5, 12, 20 at
    times 0, 1, 2, 3 with start 10 and end 20 it finds start index 1, end
    index 3, an interval of 2 and a rate of 5. *)
Theorem increasing_scan :
  (forall (counts : list Z) (times : list Q) (start_value end_value : Z),
     (start_value < end_value)%Z -> length times = length counts ->
     match list_find (fun v => start_value < v)%Z counts,
           list_find (fun v => end_value <= v)%Z counts with
     | Some (i, _), Some (j, _) =>
         exists t0 t1,
           times !! Nat.max 0 (i - 1) = Some t0 /\ times !! j = Some t1
           /\ match rate start_value end_value (PFloat (t1 - t0)) with
              | Ok r =>
                  find_crossing (ints counts) (floats times)
                                start_value end_value
                  = Ok (Found (Nat.max 0 (i - 1)) j (PFloat t0) (PFloat t1)
                              (PFloat (t1 - t0)) r)
              | Raise e =>
                  find_crossing (ints counts) (floats times)
                                start_value end_value
                  = Raise e
                  /\ e = OverflowError
                  /\ (float_overflow <= end_value - start_value)%Z
              end
     | s, e =>
         find_crossing (ints counts) (floats times) start_value end_value
         = Ok (NotFound ((fun hit => Nat.max 0 (hit.1 - 1)) <$> s) (fst <$> e))
     end)
  /\ find_crossing (ints [5; 5; 12; 20]%Z) (floats [0; 1; 2; 3]%Q) 10 20
     = Ok (Found 1 3 (PFloat 1) (PFloat 3) (PFloat 2) (PFloat (10 # 2)))
  /\ (10 # 2 == 5)%Q.
Proof.
  split; [|split; reflexivity].
  intros counts times sv ev Hlt Hlen.
  unfold find_crossing. rewrite find_indexes_increasing by done.
  destruct (list_find (fun v => sv < v)%Z counts) as [[i x]|] eqn:Hs;
    destruct (list_find (fun v => ev <= v)%Z counts) as [[j y]|] eqn:He;
    try done.
  cbn -[Nat.max Nat.sub py_index rate py_sub].
  apply list_find_Some in Hs as (Hi & _). apply list_find_Some in He as (Hj & _).
  apply lookup_lt_Some in Hi, Hj.
  destruct (lookup_lt_is_Some_2 times (Nat.max 0 (i - 1))) as [t0 Ht0]; [lia|].
  destruct (lookup_lt_is_Some_2 times j) as [t1 Ht1]; [lia|].
  rewrite (py_index_floats _ _ _ Ht0), (py_index_floats _ _ _ Ht1).
  cbn -[Nat.max Nat.sub rate].
  exists t0, t1. split_and!; [done..|].
  pose proof (rate_spec sv ev (PFloat (t1 - t0)) (NFloat (t1 - t0)) eq_refl)
    as Hr.
  rewrite Hr. destruct (Qltb 0 (num_Q (NFloat (t1 - t0)))); [|done].
  unfold quotient_fits.
  destruct (Z.ltb_spec (Z.abs (ev - sv)) float_overflow); [done|].
  split_and!; [done..|lia].
Qed.

Lemma increasing_scan_witness :
  match list_find (fun v => 10 < v)%Z [5; 5; 12; 20]%Z,
        list_find (fun v => 20 <= v)%Z [5; 5; 12; 20]%Z with
  | Some (i, _), Some (j, _) =>
      exists t0 t1,
        [0; 1; 2; 3]%Q !! Nat.max 0 (i - 1) = Some t0
        /\ [0; 1; 2; 3]%Q !! j = Some t1
        /\ match rate 10 20 (PFloat (t1 - t0)) with
           | Ok r =>
               find_crossing (ints [5; 5; 12; 20]%Z) (floats [0; 1; 2; 3]%Q)
                             10 20
               = Ok (Found (Nat.max 0 (i - 1)) j (PFloat t0) (PFloat t1)
                           (PFloat (t1 - t0)) r)
           | Raise e =>
               find_crossing (ints [5; 5; 12; 20]%Z) (floats [0; 1; 2; 3]%Q)
                             10 20
               = Raise e
               /\ e = OverflowError
               /\ (float_overflow <= 20 - 10)%Z
           end
  | s, e =>
      find_crossing (ints [5; 5; 12; 20]%Z) (floats [0; 1; 2; 3]%Q) 10 20
      = Ok (NotFound ((fun hit => Nat.max 0 (hit.1 - 1)) <$> s) (fst <$> e))
  end.
Proof.
  apply (proj1 increasing_scan [5; 5; 12; 20]%Z [0; 1; 2; 3]%Q 10%Z 20%Z).
  - reflexivity.
  - reflexivity.
Defined.

Lemma find_crossing_found (route_counts time_values : list pyval)
    (start_value end_value : Z) (s e : nat) (t0 t1 ct r : pyval) :
  find_crossing route_counts time_values start_value end_value
  = Ok (Found s e t0 t1 ct r) ->
  py_index time_values s = Ok t0 /\ py_index time_values e = Ok t1
  /\ py_sub t1 t0 = Ok ct /\ rate start_value end_value ct = Ok r.
Proof.
  unfold find_crossing.
  destruct (find_indexes route_counts start_value end_value)
    as [[[s'|] [e'|]]|]; simpl; try done.
  destruct (py_index time_values s') as [a|] eqn:Ha; simpl; [|done].
  destruct (py_index time_values e') as [b|] eqn:Hb; simpl; [|done].
  destruct (py_sub b a) as [c|] eqn:Hc; simpl; [|done].
  destruct (rate start_value end_value c) as [r'|] eqn:Hr; simpl; [|done].
  by intros [= <- <- <- <- <- <-].
Qed.

(** A difference is a number, equal to the difference of its operands. *)
Lemma py_sub_num (a b ct : pyval) :
  py_sub a b = Ok ct ->
  exists x y z, as_num a = Ok x /\ as_num b = Ok y /\ as_num ct = Ok z
                /\ (num_Q z == num_Q x - num_Q y)%Q.
Proof.
  unfold py_sub.
  destruct (as_num a) as [x|]; simpl; [|done].
  destruct (as_num b) as [y|]; simpl; [|done].
  destruct x as [m|p], y as [n|q]; cbn [to_float rbind];
    repeat match goal with
           | |- context [(Z.abs ?k <? float_overflow)%Z] =>
               destruct (Z.abs k <? float_overflow)%Z; cbn [rbind]
           end;
    try done; intros [= <-]; cbn [as_num num_Q];
    eexists _, _, _; repeat split; try reflexivity.
  unfold Qeq, Qminus, Qplus, Qopp, inject_Z. simpl. lia.
Qed.

Lemma to_float_raises (x : num) (e : exn) :
  to_float x = Raise e -> e = OverflowError.
Proof.
  destruct x as [n|q]; simpl; [|done].
  destruct (Z.abs n <? float_overflow)%Z; congruence.
Qed.

Lemma as_num_raises (v : pyval) (e : exn) : as_num v = Raise e -> e = TypeError.
Proof. destruct v; simpl; congruence. Qed.

Lemma compare_no_zero_division (cmp : pyval -> pyval -> result bool)
    (a b : pyval) :
  cmp = py_lt \/ cmp = py_le \/ cmp = py_gt \/ cmp = py_ge ->
  no_zero_division (cmp a b).
Proof.
  intros H E.
  assert (forall f : num -> num -> bool,
            (let? x := as_num a in let? y := as_num b in Ok (f x y))
            <> Raise ZeroDivisionError) as Hf.
  { intros f. destruct (as_num a) as [x|e1] eqn:Ha; simpl.
    - destruct (as_num b) as [y|e2] eqn:Hb; simpl; [done|].
      apply as_num_raises in Hb. congruence.
    - apply as_num_raises in Ha. congruence. }
  destruct H as [-> | [-> | [-> | ->]]]; revert E; apply Hf.
Qed.

Lemma first_index_no_zero_division (p : pyval -> result bool)
    (l : list pyval) (i0 : nat) :
  (forall c, no_zero_division (p c)) -> no_zero_division (first_index p l i0).
Proof.
  intros Hp. revert i0. induction l as [|c l IH]; intros i0; simpl; [done|].
  destruct (p c) as [[]|e] eqn:Hc; simpl; [done | apply IH |].
  intros [= ->]. by apply (Hp c).
Qed.

Lemma find_indexes_no_zero_division (route_counts : list pyval)
    (start_value end_value : Z) :
  no_zero_division (find_indexes route_counts start_value end_value).
Proof.
  unfold find_indexes.
  destruct (start_value <? end_value)%Z.
  - pose proof (first_index_no_zero_division
      (fun count => py_gt count (PInt start_value)) route_counts 0) as H1.
    pose proof (first_index_no_zero_division
      (fun count => py_ge count (PInt end_value)) route_counts 0) as H2.
    destruct (first_index _ route_counts 0) as [s|e1]; simpl.
    + destruct (first_index _ route_counts 0) as [e|e2]; simpl; [done|].
      intros [= ->]. apply H2; [|done].
      intros c. apply compare_no_zero_division; auto.
    + intros [= ->]. apply H1; [|done].
      intros c. apply compare_no_zero_division; auto.
  - pose proof (first_index_no_zero_division
      (fun count => py_lt count (PInt start_value)) route_counts 0) as H1.
    pose proof (first_index_no_zero_division
      (fun count => py_le count (PInt end_value)) route_counts 0) as H2.
    destruct (first_index _ route_counts 0) as [s|e1]; simpl.
    + destruct (first_index _ route_counts 0) as [e|e2]; simpl; [done|].
      intros [= ->]. apply H2; [|done].
      intros c. apply compare_no_zero_division; auto.
    + intros [= ->]. apply H1; [|done].
      intros c. apply compare_no_zero_division; auto.
Qed.

Lemma rate_no_zero_division (start_value end_value : Z) (conv_time : pyval) :
  no_zero_division (rate start_value end_value conv_time).
Proof.
  destruct (as_num conv_time) as [x|e] eqn:Hx.
  - rewrite (rate_spec _ _ _ x Hx).
    by destruct (Qltb 0 (num_Q x)),
                (quotient_fits (end_value - start_value) x).
  - unfold rate, py_gt. rewrite Hx. simpl.
    apply as_num_raises in Hx. by subst.
Qed.

Lemma find_crossing_no_zero_division (route_counts time_values : list pyval)
    (start_value end_value : Z) :
  no_zero_division
    (find_crossing route_counts time_values start_value end_value).
Proof.
  unfold find_crossing.
  pose proof (find_indexes_no_zero_division route_counts start_value end_value)
    as Hidx.
  destruct (find_indexes route_counts start_value end_value)
    as [[[s|] [e|]]|ex]; simpl; try done;
    [|intros [= ->]; by apply Hidx].
  unfold py_index.
  destruct (time_values !! s) as [a|]; simpl; [|done].
  destruct (time_values !! e) as [b|]; simpl; [|done].
  destruct (py_sub b a) as [c|e1] eqn:Hc; simpl.
  - pose proof (rate_no_zero_division start_value end_value c) as Hr.
    destruct (rate start_value end_value c) as [r|e1]; simpl; [done|].
    intros [= ->]. by apply Hr.
  - unfold py_sub in Hc.
    destruct (as_num b) as [x|e2] eqn:Hb; cbn [rbind] in Hc.
    + destruct (as_num a) as [y|e3] eqn:Ha; cbn [rbind] in Hc.
      * destruct x as [m|p], y as [n|q]; [done|..];
          (destruct (to_float _) as [u|e4] eqn:Hu in Hc; cbn [rbind] in Hc;
           [destruct (to_float _) as [v|e5] eqn:Hv in Hc; cbn [rbind] in Hc;
            [done | apply to_float_raises in Hv; congruence]
           | apply to_float_raises in Hu; congruence]).
      * apply as_num_raises in Ha. congruence.
    + apply as_num_raises in Hb. congruence.
Qed.

(** C5.  In every crossing the scan reports, the rate is the quotient of
    [|end value - start value|] by the elapsed interval when that interval
    is positive and is 0 otherwise, in particular when the start and the
    end index are the same; and no scan ever raises a division by zero. *)
Theorem rate_never_divides_by_zero :
  (forall (route_counts time_values : list pyval) (start_value end_value : Z)
          (s e : nat) (t0 t1 conv_time r : pyval),
     find_crossing route_counts time_values start_value end_value
     = Ok (Found s e t0 t1 conv_time r) ->
     exists x, as_num conv_time = Ok x
       /\ ((0 < num_Q x)%Q ->
           r = PFloat (inject_Z (Z.abs (end_value - start_value)) / num_Q x))
       /\ (~ (0 < num_Q x)%Q -> r = PInt 0)
       /\ (s = e -> r = PInt 0))
  /\ (forall (route_counts time_values : list pyval)
             (start_value end_value : Z),
        find_crossing route_counts time_values start_value end_value
        <> Raise ZeroDivisionError).
Proof.
  split; [|apply find_crossing_no_zero_division].
  intros rc tv sv ev s e t0 t1 ct r (Hs & He & Hsub & Hrate)%find_crossing_found.
  destruct (py_sub_num _ _ _ Hsub) as (x & y & z & Hx & Hy & Hz & Heq).
  exists z. split; [done|].
  rewrite (rate_spec sv ev ct z Hz) in Hrate.
  split; [|split].
  - intros Hpos. rewrite (proj2 (Qltb_lt _ _) Hpos) in Hrate.
    destruct (quotient_fits (ev - sv) z); [by injection Hrate as <- | done].
  - intros Hneg. destruct (Qltb 0 (num_Q z)) eqn:E;
      [by apply Qltb_lt in E | by injection Hrate as <-].
  - intros ->. rewrite He in Hs. injection Hs as ->.
    rewrite Hx in Hy. injection Hy as ->.
    destruct (Qltb 0 (num_Q z)) eqn:E; [|by injection Hrate as <-].
    apply Qltb_lt in E. rewrite Heq in E.
    unfold Qminus in E. rewrite Qplus_opp_r in E. by apply Qlt_irrefl in E.
Qed.

Lemma rate_never_divides_by_zero_witness :
  exists x, as_num (PFloat 2) = Ok x
    /\ ((0 < num_Q x)%Q ->
        PFloat (10 # 2) = PFloat (inject_Z (Z.abs (20 - 10)) / num_Q x))
    /\ (~ (0 < num_Q x)%Q -> PFloat (10 # 2) = PInt 0)
    /\ (1 = 3 -> PFloat (10 # 2) = PInt 0).
Proof.
  apply (proj1 rate_never_divides_by_zero
           (ints [5; 5; 12; 20]%Z) (floats [0; 1; 2; 3]%Q) 10%Z 20%Z
           1 3 (PFloat 1) (PFloat 3)).
  reflexivity.
Defined.

(** C3 as stated fails: with start 20 and end 5 the scan of the counts
    5, 5, 12, 20 does not miss the start index. *)
Lemma decreasing_scan_finds_start :
  ~ exists e, find_crossing (ints [5; 5; 12; 20]%Z) (floats [0; 1; 2; 3]%Q)
                            20 5
              = Ok (NotFound None e).
Proof. intros [e He]. vm_compute in He. discriminate He. Qed.

(** C3, as amended.  For the counts 5, 5, 12, 20 at times 0, 1, 2, 3 with
    start 20 and end 5 (a falling pair) the scan finds both indexes at the
    first sample, whose count is below 20 and not above 5: start index 0,
    end index 0, an interval of 0 and a rate of 0. *)
Theorem decreasing_scan_first_sample :
  find_crossing (ints [5; 5; 12; 20]%Z) (floats [0; 1; 2; 3]%Q) 20 5
  = Ok (Found 0 0 (PFloat 0) (PFloat 0) (PFloat 0) (PInt 0)).
Proof. reflexivity. Qed.

(** ** Validation of the thresholds *)

Lemma map_result_length {A B} (f : A -> result B) (l : list A) (l' : list B) :
  map_result f l = Ok l' -> length l' = length l.
Proof.
  revert l'. induction l as [|x l IH]; intros l'; simpl.
  - by intros [= <-].
  - destruct (f x) as [y|]; simpl; [|done].
    destruct (map_result f l) as [ys|]; simpl; [|done].
    intros [= <-]. simpl. by rewrite (IH ys).
Qed.

Lemma map_result_raises {A B} (f : A -> result B) (l : list A) (e : exn) :
  map_result f l = Raise e -> exists x, x ∈ l /\ f x = Raise e.
Proof.
  induction l as [|x l IH]; simpl; [done|].
  destruct (f x) as [y|e1] eqn:Hx; simpl.
  - destruct (map_result f l) as [ys|e2]; simpl; [done|].
    intros [= ->]. destruct IH as (x' & Hin & Hx'); [done|].
    exists x'. split; [apply elem_of_cons; by right | done].
  - intros [= ->]. exists x. split; [apply elem_of_cons; by left | done].
Qed.

Lemma int_digits_raises (s : string) (acc : Z) (b : bool) (e : exn) :
  int_digits s acc b = Raise e -> e = ValueError.
Proof.
  revert acc b. induction s as [|c s IH]; simpl; intros acc b.
  - destruct b; congruence.
  - destruct (is_decimal c); [apply IH|].
    destruct (Ascii.eqb c "_" && b); [apply IH | congruence].
Qed.

Lemma int_unsigned_raises (s : string) (e : exn) :
  int_unsigned s = Raise e -> e = ValueError.
Proof.
  unfold int_unsigned.
  destruct (int_digits s 0 false) as [n|e'] eqn:E; simpl.
  - destruct (int_max_str_digits <? digit_count s)%Z; congruence.
  - intros [= ->]. by apply int_digits_raises in E.
Qed.

Lemma int_raises (s : string) (e : exn) : int s = Raise e -> e = ValueError.
Proof.
  unfold int.
  assert (forall s', (let? n := int_unsigned s' in Ok (- n)%Z) = Raise e
                     -> e = ValueError) as Hneg.
  { intros s'. destruct (int_unsigned s') as [n|e'] eqn:E; simpl; [done|].
    intros [= ->]. by apply int_unsigned_raises in E. }
  destruct (strip s) as [|c s']; [apply int_unsigned_raises|].
  destruct c as [[] [] [] [] [] [] [] []];
    first [apply Hneg | apply int_unsigned_raises].
Qed.

Lemma int_list_raises (s : string) (e : exn) :
  int_list s = Raise e -> e = ValueError.
Proof.
  intros (x & _ & Hx)%map_result_raises. by apply int_raises in Hx.
Qed.

Lemma int_list_length (s : string) (l : list Z) :
  int_list s = Ok l -> length l = length (split "," s).
Proof. apply map_result_length. Qed.

Lemma given_Some (s : string) : s <> "" -> given (Some s) = true.
Proof.
  intros Hs. simpl. destruct (String.eqb_spec s ""); [done | reflexivity].
Qed.

(** The startup phase under a length mismatch. *)
Lemma main_startup_mismatch (a : arguments) (s e : string) :
  arg_start_values a = Some s -> arg_end_values a = Some e ->
  s <> "" -> e <> "" ->
  length (split "," s) <> length (split "," (arg_families a))
  \/ length (split "," e) <> length (split "," (arg_families a)) ->
  main_startup a
  = match int_list s, int_list e with
    | Ok _, Ok _ => Exit 1 mismatch_message
    | _, _ => Uncaught ValueError
    end.
Proof.
  intros Hs He Hs0 He0 Hlen. unfold main_startup.
  rewrite Hs, He, !given_Some by done. simpl.
  destruct (int_list s) as [sv|e1] eqn:Esv.
  - destruct (int_list e) as [ev|e2] eqn:Eev.
    + apply int_list_length in Esv, Eev.
      rewrite length_map.
      destruct (length sv =? length (split "," (arg_families a))) eqn:E1;
        [|done].
      destruct (length ev =? length (split "," (arg_families a))) eqn:E2;
        [|done].
      apply Nat.eqb_eq in E1, E2. lia.
    + apply int_list_raises in Eev. by subst.
  - apply int_list_raises in Esv. by subst.
Qed.

(** C7.  When both threshold lists are given and the number of entries of
    one of them differs from the number of families, [main] stops before
    any collection thread is started: it exits with status 1 and the
    mismatch message when every entry reads as an integer, and dies of the
    uncaught [ValueError] of [int] otherwise. *)
Theorem threshold_mismatch_aborts (a : arguments) (s e : string) :
  arg_start_values a = Some s -> arg_end_values a = Some e ->
  s <> "" -> e <> "" ->
  length (split "," s) <> length (split "," (arg_families a))
  \/ length (split "," e) <> length (split "," (arg_families a)) ->
  pollers_started (main_startup a) = []
  /\ (main_startup a = Exit 1 mismatch_message
      \/ main_startup a = Uncaught ValueError)
  /\ (forall sv ev, int_list s = Ok sv -> int_list e = Ok ev ->
        main_startup a = Exit 1 mismatch_message).
Proof.
  intros Hs He Hs0 He0 Hlen.
  rewrite (main_startup_mismatch a s e) by done.
  destruct (int_list s) as [sv|]; destruct (int_list e) as [ev|]; simpl;
    repeat split; auto; congruence.
Qed.

Lemma threshold_mismatch_aborts_witness :
  let a := {| arg_targets := "r1,r2"; arg_protocol := "bgp";
              arg_families := "ipv4-unicast,ipv6-unicast";
              arg_duration := 60;
              arg_start_values := Some "10,20,30";
              arg_end_values := Some "100,200" |} in
  pollers_started (main_startup a) = []
  /\ (main_startup a = Exit 1 mismatch_message
      \/ main_startup a = Uncaught ValueError)
  /\ (forall sv ev, int_list "10,20,30" = Ok sv -> int_list "100,200" = Ok ev ->
        main_startup a = Exit 1 mismatch_message).
Proof.
  intros a.
  apply (threshold_mismatch_aborts a "10,20,30" "100,200").
  - reflexivity.
  - reflexivity.
  - discriminate.
  - discriminate.
  - left. vm_compute. lia.
Defined.

(** ** Running the convergence scan again *)

Lemma touch_touch (rs : routeStats) : touch (touch rs) = touch rs.
Proof.
  unfold touch at 2. destruct (rs !! elapsed_key) as [l|] eqn:E.
  - unfold touch. by rewrite E.
  - unfold touch. by rewrite lookup_insert_eq, E.
Qed.

Lemma touch_lookup (rs : routeStats) (k : string) :
  k <> elapsed_key -> touch rs !! k = rs !! k.
Proof.
  intros Hk. unfold touch. destruct (rs !! elapsed_key); [done|].
  by rewrite lookup_insert_ne.
Qed.

Lemma touch_series (rs : routeStats) (k : string) :
  series (touch rs) k = series rs k.
Proof.
  unfold series, touch. destruct (rs !! elapsed_key) as [l|] eqn:E; [done|].
  destruct (decide (k = elapsed_key)) as [->|Hk].
  - by rewrite lookup_insert_eq, E.
  - by rewrite lookup_insert_ne.
Qed.

Lemma dd_getitem_elapsed (rs : routeStats) :
  dd_getitem elapsed_key rs = (touch rs, Ok (series rs elapsed_key)).
Proof.
  unfold dd_getitem, touch, series. by destruct (rs !! elapsed_key).
Qed.

Lemma family_convergence_eq (protocol : string)
    (starting_values ending_values : list Z) (idx : nat) (family : string)
    (rs : routeStats) :
  family_convergence protocol starting_values ending_values (idx, family) rs
  = match rs !! total_key family protocol with
    | None => (rs, Ok None)
    | Some route_counts =>
        (touch rs,
         family_report starting_values ending_values idx route_counts
                       (series rs elapsed_key))
    end.
Proof.
  unfold family_convergence, family_report.
  destruct (rs !! total_key family protocol) as [l|] eqn:E; [|done].
  unfold bind at 1. unfold dd_getitem at 1. rewrite E.
  unfold bind at 1. rewrite dd_getitem_elapsed.
  unfold bind, lift, ret.
  destruct (py_index starting_values idx); simpl; [|done].
  destruct (py_index ending_values idx); simpl; [|done].
  by destruct (find_crossing _ _ _ _).
Qed.

Section rescan.
Variables (protocol : string) (starting_values ending_values : list Z).

Let scan := family_convergence protocol starting_values ending_values.

Lemma scan_state (entry : nat * string) (rs : routeStats) :
  (scan entry rs).1 = rs \/ (scan entry rs).1 = touch rs.
Proof.
  destruct entry as [idx family]. unfold scan.
  rewrite family_convergence_eq.
  destruct (rs !! total_key family protocol); simpl; auto.
Qed.

Lemma scan_touched (entry : nat * string) (rs : routeStats) :
  scan entry (touch rs) = (touch rs, (scan entry rs).2).
Proof.
  destruct entry as [idx family]. unfold scan.
  rewrite !family_convergence_eq.
  rewrite touch_lookup by apply total_elapsed_ne.
  destruct (rs !! total_key family protocol); simpl; [|done].
  by rewrite touch_touch, touch_series.
Qed.

Lemma scans_touched (entries : list (nat * string)) (rs : routeStats) :
  ((map_each entries scan rs).1 = rs
   \/ (map_each entries scan rs).1 = touch rs)
  /\ map_each entries scan (touch rs)
     = (touch rs, (map_each entries scan rs).2).
Proof.
  revert rs. induction entries as [|entry entries IH]; intros rs.
  - simpl. unfold ret. auto.
  - rewrite !map_each_cons, scan_touched.
    pose proof (scan_state entry rs) as Hst.
    destruct (scan entry rs) as [rs1 [y|e]]; simpl in Hst; simpl; [|auto].
    destruct Hst as [-> | ->].
    + destruct (IH rs) as [Hs Ht]. rewrite Ht.
      destruct (map_each entries scan rs) as [rs2 [ys|e]]; simpl in *; auto.
    + destruct (IH (touch rs)) as [Hs _]. rewrite touch_touch in Hs.
      destruct (map_each entries scan (touch rs)) as [rs2 [ys|e]];
        simpl in *; destruct Hs; subst; auto.
Qed.
End rescan.

(** C9.  Running the convergence scan of a device a second time, on the
    store the first run left, gives the same report and leaves the same
    store; and no run changes a recorded sequence. *)
Theorem convergence_scan_idempotent (protocol : string)
    (families : list string) (starting_values ending_values : list Z)
    (rs : routeStats) :
  let run := device_convergence protocol families starting_values
                                ending_values in
  run (run rs).1 = run rs
  /\ (forall k, series (run rs).1 k = series rs k).
Proof.
  intros run. unfold run, device_convergence.
  destruct (scans_touched protocol starting_values ending_values
              (enumerate 0 families) rs) as [[Hs|Hs] Ht].
  - split.
    + by rewrite Hs.
    + intros k. by rewrite Hs.
  - split.
    + rewrite Hs, Ht. rewrite <- Hs. by destruct (map_each _ _ rs).
    + intros k. rewrite Hs. apply touch_series.
Qed.

(** * Further properties *)

(** ** The scan in both directions *)

Lemma py_lt_ints (z v : Z) : py_lt (PInt z) (PInt v) = Ok (bool_decide (z < v)%Z).
Proof.
  unfold py_lt; simpl. f_equal.
  destruct (Z.ltb_spec z v);
    [by rewrite bool_decide_eq_true_2 | rewrite bool_decide_eq_false_2; [done|lia]].
Qed.

Lemma py_le_ints (z v : Z) : py_le (PInt z) (PInt v) = Ok (bool_decide (z <= v)%Z).
Proof.
  unfold py_le; simpl. f_equal.
  destruct (Z.leb_spec z v);
    [by rewrite bool_decide_eq_true_2 | rewrite bool_decide_eq_false_2; [done|lia]].
Qed.

Lemma find_indexes_decreasing (counts : list Z) (start_value end_value : Z) :
  (end_value <= start_value)%Z ->
  find_indexes (ints counts) start_value end_value
  = Ok ((fun hit => Nat.max 0 (hit.1 - 1))
          <$> list_find (fun v => v < start_value)%Z counts,
        fst <$> list_find (fun v => v <= end_value)%Z counts).
Proof.
  intros Hle. unfold find_indexes.
  rewrite (proj2 (Z.ltb_ge _ _) Hle).
  rewrite (first_index_ints _ (fun v => v < start_value)%Z)
    by (intros z; apply py_lt_ints).
  rewrite (first_index_ints _ (fun v => v <= end_value)%Z)
    by (intros z; apply py_le_ints).
  destruct (list_find (fun v => v < start_value)%Z counts) as [[i x]|];
    destruct (list_find (fun v => v <= end_value)%Z counts) as [[j y]|];
    simpl; rewrite ?step_back_pred; done.
Qed.

(** The rate over a rational interval: the one exception is the
    [OverflowError] of a threshold distance that no float holds. *)
Lemma rate_float (start_value end_value : Z) (q : Q) :
  match rate start_value end_value (PFloat q) with
  | Ok r => True
  | Raise e =>
      e = OverflowError /\ (float_overflow <= Z.abs (end_value - start_value))%Z
  end.
Proof.
  rewrite (rate_spec start_value end_value (PFloat q) (NFloat q) eq_refl).
  destruct (Qltb 0 (num_Q (NFloat q))); [|done]. unfold quotient_fits.
  by destruct (Z.ltb_spec (Z.abs (end_value - start_value)) float_overflow).
Qed.

(** With both indexes in range, the scan of integer counts and rational
    times reports the crossing once the rate is computed. *)
Lemma find_crossing_indexes (counts : list Z) (times : list Q)
    (start_value end_value : Z) (s e : option nat) :
  find_indexes (ints counts) start_value end_value = Ok (s, e) ->
  match s, e with
  | Some i, Some j =>
      i < length times -> j < length times ->
      exists t0 t1,
        times !! i = Some t0 /\ times !! j = Some t1
        /\ find_crossing (ints counts) (floats times) start_value end_value
           = (let? r := rate start_value end_value (PFloat (t1 - t0)) in
              Ok (Found i j (PFloat t0) (PFloat t1) (PFloat (t1 - t0)) r))
  | _, _ =>
      find_crossing (ints counts) (floats times) start_value end_value
      = Ok (NotFound s e)
  end.
Proof.
  intros Hidx. unfold find_crossing. rewrite Hidx.
  destruct s as [i|], e as [j|]; try done.
  intros Hi Hj.
  destruct (lookup_lt_is_Some_2 times i Hi) as [t0 Ht0].
  destruct (lookup_lt_is_Some_2 times j Hj) as [t1 Ht1].
  cbn -[py_index rate py_sub].
  rewrite (py_index_floats _ _ _ Ht0), (py_index_floats _ _ _ Ht1).
  by exists t0, t1.
Qed.

(** X1.  For a falling or level threshold pair (end value at most the
    start value), on every series of integer counts with its elapsed
    times, the scan takes as start index [max(0, i - 1)] for the first [i]
    whose count is below the start value and as end index the first [j]
    whose count is at most the end value, and reports which index is
    missing when one is.  With both indexes it reports them with the two
    times, their difference and the rate; the one exception it can raise
    then is the [OverflowError] of the division, which takes thresholds
    that are further apart than a float can hold. *)
Theorem decreasing_scan (counts : list Z) (times : list Q)
    (start_value end_value : Z) :
  (end_value <= start_value)%Z -> length times = length counts ->
  match list_find (fun v => v < start_value)%Z counts,
        list_find (fun v => v <= end_value)%Z counts with
  | Some (i, _), Some (j, _) =>
      exists t0 t1,
        times !! Nat.max 0 (i - 1) = Some t0 /\ times !! j = Some t1
        /\ match rate start_value end_value (PFloat (t1 - t0)) with
           | Ok r =>
               find_crossing (ints counts) (floats times)
                             start_value end_value
               = Ok (Found (Nat.max 0 (i - 1)) j (PFloat t0) (PFloat t1)
                           (PFloat (t1 - t0)) r)
           | Raise e =>
               find_crossing (ints counts) (floats times)
                             start_value end_value
               = Raise e
               /\ e = OverflowError
               /\ (float_overflow <= start_value - end_value)%Z
           end
  | s, e =>
      find_crossing (ints counts) (floats times) start_value end_value
      = Ok (NotFound ((fun hit => Nat.max 0 (hit.1 - 1)) <$> s) (fst <$> e))
  end.
Proof.
  intros Hle Hlen.
  pose proof (find_crossing_indexes counts times start_value end_value _ _
                (find_indexes_decreasing counts start_value end_value Hle))
    as H.
  destruct (list_find (fun v => v < start_value)%Z counts) as [[i x]|] eqn:Hs;
    destruct (list_find (fun v => v <= end_value)%Z counts) as [[j y]|] eqn:He;
    try done.
  apply list_find_Some in Hs as (Hi & _). apply list_find_Some in He as (Hj & _).
  apply lookup_lt_Some in Hi, Hj.
  destruct H as (t0 & t1 & Ht0 & Ht1 & H); [cbn -[Nat.max Nat.sub]; lia..|].
  exists t0, t1. split_and!; [done..|]. rewrite H.
  pose proof (rate_float start_value end_value (t1 - t0)) as Hr.
  destruct (rate start_value end_value (PFloat (t1 - t0))) as [r|e]; [done|].
  destruct Hr as [-> Hr]. split_and!; [done..|lia].
Qed.

Lemma decreasing_scan_witness :
  match list_find (fun v => v < 20)%Z [30; 20; 12; 5]%Z,
        list_find (fun v => v <= 5)%Z [30; 20; 12; 5]%Z with
  | Some (i, _), Some (j, _) =>
      exists t0 t1,
        [0; 1; 2; 3]%Q !! Nat.max 0 (i - 1) = Some t0
        /\ [0; 1; 2; 3]%Q !! j = Some t1
        /\ match rate 20 5 (PFloat (t1 - t0)) with
           | Ok r =>
               find_crossing (ints [30; 20; 12; 5]%Z) (floats [0; 1; 2; 3]%Q)
                             20 5
               = Ok (Found (Nat.max 0 (i - 1)) j (PFloat t0) (PFloat t1)
                           (PFloat (t1 - t0)) r)
           | Raise e =>
               find_crossing (ints [30; 20; 12; 5]%Z) (floats [0; 1; 2; 3]%Q)
                             20 5
               = Raise e
               /\ e = OverflowError
               /\ (float_overflow <= 20 - 5)%Z
           end
  | s, e =>
      find_crossing (ints [30; 20; 12; 5]%Z) (floats [0; 1; 2; 3]%Q) 20 5
      = Ok (NotFound ((fun hit => Nat.max 0 (hit.1 - 1)) <$> s) (fst <$> e))
  end.
Proof.
  apply (decreasing_scan [30; 20; 12; 5]%Z [0; 1; 2; 3]%Q 20%Z 5%Z).
  - lia.
  - reflexivity.
Defined.

(** On integer counts both index searches return, with indexes inside
    the series. *)
Lemma find_indexes_in_range (counts : list Z) (start_value end_value : Z) :
  exists s e,
    find_indexes (ints counts) start_value end_value = Ok (s, e)
    /\ (forall i, s = Some i -> i < length counts)
    /\ (forall j, e = Some j -> j < length counts).
Proof.
  destruct (Z.lt_ge_cases start_value end_value) as [Hlt|Hge].
  - rewrite find_indexes_increasing by done. eexists _, _.
    split; [done|]. split.
    + intros i.
      destruct (list_find _ counts) as [[i0 x]|] eqn:E; [|done].
      intros [= <-]. apply list_find_Some in E as (E%lookup_lt_Some & _).
      simpl. lia.
    + intros j.
      destruct (list_find (fun v => end_value <= v)%Z counts)
        as [[j0 y]|] eqn:E; [|done].
      intros [= <-]. by apply list_find_Some in E as (E%lookup_lt_Some & _).
  - rewrite find_indexes_decreasing by done. eexists _, _.
    split; [done|]. split.
    + intros i.
      destruct (list_find _ counts) as [[i0 x]|] eqn:E; [|done].
      intros [= <-]. apply list_find_Some in E as (E%lookup_lt_Some & _).
      simpl. lia.
    + intros j.
      destruct (list_find (fun v => v <= end_value)%Z counts)
        as [[j0 y]|] eqn:E; [|done].
      intros [= <-]. by apply list_find_Some in E as (E%lookup_lt_Some & _).
Qed.

(** On integer counts with as many rational times the scan returns,
    or the division of the rate raises [OverflowError]. *)
Lemma find_crossing_ints (counts : list Z) (times : list Q)
    (start_value end_value : Z) :
  length times = length counts ->
  match find_crossing (ints counts) (floats times) start_value end_value with
  | Ok c => True
  | Raise e =>
      e = OverflowError /\ (float_overflow <= Z.abs (end_value - start_value))%Z
  end.
Proof.
  intros Hlen.
  destruct (find_indexes_in_range counts start_value end_value)
    as (s & e & Hidx & Hs & He).
  pose proof (find_crossing_indexes counts times _ _ s e Hidx) as H.
  destruct s as [i|], e as [j|]; try by rewrite H.
  destruct H as (t0 & t1 & _ & _ & ->).
  - rewrite Hlen. by apply Hs.
  - rewrite Hlen. by apply He.
  - pose proof (rate_float start_value end_value (t1 - t0)) as Hr.
    by destruct (rate start_value end_value (PFloat (t1 - t0))).
Qed.

(** X2.  On integer counts with as many rational elapsed times, the
    scan returns whenever the two thresholds are less than
    [float_overflow] apart, in either direction; whatever the
    thresholds, the one exception it can raise is [OverflowError]. *)
Theorem scan_returns (counts : list Z) (times : list Q)
    (start_value end_value : Z) :
  length times = length counts ->
  ((Z.abs (end_value - start_value) < float_overflow)%Z ->
   exists c,
     find_crossing (ints counts) (floats times) start_value end_value = Ok c)
  /\ (forall e,
        find_crossing (ints counts) (floats times) start_value end_value
        = Raise e ->
        e = OverflowError).
Proof.
  intros Hlen.
  pose proof (find_crossing_ints counts times start_value end_value Hlen) as H.
  destruct (find_crossing _ _ _ _) as [c|e]; split.
  - eauto.
  - done.
  - destruct H. lia.
  - intros ? [= <-]. by destruct H.
Qed.

Lemma scan_returns_witness :
  exists c,
    find_crossing (ints [5; 5; 12; 20]%Z) (floats [0; 1; 2; 3]%Q) 7 7 = Ok c.
Proof.
  apply (scan_returns [5; 5; 12; 20]%Z [0; 1; 2; 3]%Q 7%Z 7%Z).
  - reflexivity.
  - reflexivity.
Defined.

(** X16.  On integer counts with rational elapsed times, when the scan
    finds both indexes, the time at the end index is later than the time
    at the start index and the two thresholds are [float_overflow] or
    more apart, the division of the rate raises [OverflowError] and the
    scan reports nothing. *)
Theorem scan_overflows (counts : list Z) (times : list Q)
    (start_value end_value : Z) (i j : nat) (t0 t1 : Q) :
  find_indexes (ints counts) start_value end_value = Ok (Some i, Some j) ->
  times !! i = Some t0 -> times !! j = Some t1 -> (t0 < t1)%Q ->
  (float_overflow <= Z.abs (end_value - start_value))%Z ->
  find_crossing (ints counts) (floats times) start_value end_value
  = Raise OverflowError.
Proof.
  intros Hidx Ht0 Ht1 Hlt Hfar. unfold find_crossing. rewrite Hidx.
  cbn -[py_index rate py_sub].
  rewrite (py_index_floats _ _ _ Ht0), (py_index_floats _ _ _ Ht1).
  cbn -[rate].
  rewrite (rate_spec start_value end_value (PFloat (t1 - t0))
             (NFloat (t1 - t0)) eq_refl).
  cbn [num_Q quotient_fits].
  assert (Qltb 0 (t1 - t0) = true) as ->.
  { apply Qltb_lt. unfold Qminus. rewrite <- (Qplus_opp_r t0).
    by apply Qplus_lt_l. }
  by rewrite (proj2 (Z.ltb_ge _ _) Hfar).
Qed.

Lemma scan_overflows_witness :
  find_crossing (ints [5; 0]%Z) (floats [0; 1]%Q) (10 ^ 400) 0
  = Raise OverflowError.
Proof.
  apply (scan_overflows [5; 0]%Z [0; 1]%Q (10 ^ 400)%Z 0%Z 0 1 0%Q 1%Q).
  - vm_compute. reflexivity.
  - reflexivity.
  - reflexivity.
  - reflexivity.
  - vm_compute. discriminate.
Defined.

(** ** Order of the two indexes *)

Lemma sorted_lookup_lt {A} (R : relation A) (l : list A) (i j : nat) (a b : A) :
  StronglySorted R l -> i < j -> l !! i = Some a -> l !! j = Some b -> R a b.
Proof.
  intros Hs. revert i j. induction Hs as [|x l Hs IH Hall]; intros i j Hij.
  - by rewrite lookup_nil.
  - destruct j as [|j]; [lia|]. destruct i as [|i]; simpl.
    + intros [= <-] Hb. rewrite Forall_forall in Hall.
      apply Hall. by eapply list_elem_of_lookup_2.
    + apply IH. lia.
Qed.

Lemma find_crossing_found_indexes (route_counts time_values : list pyval)
    (start_value end_value : Z) (s e : nat) (t0 t1 ct r : pyval) :
  find_crossing route_counts time_values start_value end_value
  = Ok (Found s e t0 t1 ct r) ->
  find_indexes route_counts start_value end_value = Ok (Some s, Some e).
Proof.
  unfold find_crossing.
  destruct (find_indexes route_counts start_value end_value)
    as [[[s'|] [e'|]]|]; simpl; try done.
  destruct (py_index time_values s') as [a|]; simpl; [|done].
  destruct (py_index time_values e') as [b|]; simpl; [|done].
  destruct (py_sub b a) as [c|]; simpl; [|done].
  destruct (rate start_value end_value c) as [r'|]; simpl; [|done].
  by intros [= <- <- _ _ _ _].
Qed.

(** The first element with a property comes no later than any element
    with a stronger one. *)
Lemma list_find_le {A} (P Q : A -> Prop) `{!forall x, Decision (P x)}
    `{!forall x, Decision (Q x)} (l : list A) (i j : nat) (x y : A) :
  (forall z, Q z -> P z) ->
  list_find P l = Some (i, x) -> list_find Q l = Some (j, y) -> i <= j.
Proof.
  intros HQP (_ & _ & Hmin)%list_find_Some (Hj & Hy & _)%list_find_Some.
  destruct (decide (i <= j)) as [|Hgt]; [done|].
  destruct (Hmin j y Hj); [lia | by apply HQP].
Qed.

Lemma find_indexes_ordered (counts : list Z) (start_value end_value : Z)
    (s e : nat) :
  start_value <> end_value ->
  find_indexes (ints counts) start_value end_value = Ok (Some s, Some e) ->
  s <= e /\ e < length counts.
Proof.
  intros Hne.
  destruct (Z.lt_ge_cases start_value end_value) as [Hlt|Hge].
  - rewrite find_indexes_increasing by done.
    destruct (list_find (fun v => start_value < v)%Z counts)
      as [[i x]|] eqn:Es; [|done].
    destruct (list_find (fun v => end_value <= v)%Z counts)
      as [[j y]|] eqn:Ee; [|done].
    intros [= <- <-].
    assert (i <= j).
    { eapply (list_find_le (fun v => start_value < v)%Z
                           (fun v => end_value <= v)%Z); [|done..].
      simpl. lia. }
    apply list_find_Some in Ee as (Hj%lookup_lt_Some & _). simpl. lia.
  - rewrite find_indexes_decreasing by done.
    destruct (list_find (fun v => v < start_value)%Z counts)
      as [[i x]|] eqn:Es; [|done].
    destruct (list_find (fun v => v <= end_value)%Z counts)
      as [[j y]|] eqn:Ee; [|done].
    intros [= <- <-].
    assert (i <= j).
    { eapply (list_find_le (fun v => v < start_value)%Z
                           (fun v => v <= end_value)%Z); [|done..].
      simpl. lia. }
    apply list_find_Some in Ee as (Hj%lookup_lt_Some & _). simpl. lia.
Qed.

(** X3.  When the two thresholds differ, a crossing found on integer
    counts has its start index at or before its end index; so with
    strictly increasing elapsed times the convergence time is never
    negative, and it is positive, with the rate the quotient, as soon as
    the two indexes differ. *)
Theorem crossing_indexes_ordered (counts : list Z) (times : list Q)
    (start_value end_value : Z) (s e : nat) (t0 t1 conv_time r : pyval) :
  start_value <> end_value ->
  find_crossing (ints counts) (floats times) start_value end_value
  = Ok (Found s e t0 t1 conv_time r) ->
  s <= e /\ e < length counts
  /\ (StronglySorted Qlt times ->
      exists q, conv_time = PFloat q /\ (0 <= q)%Q
        /\ (s < e ->
            (0 < q)%Q
            /\ r = PFloat (inject_Z (Z.abs (end_value - start_value)) / q))).
Proof.
  intros Hne Hfound.
  pose proof (find_crossing_found_indexes _ _ _ _ _ _ _ _ _ _ Hfound) as Hidx.
  destruct (find_indexes_ordered counts _ _ s e Hne Hidx) as [Hse He].
  split; [done|]. split; [done|]. intros Hsorted.
  apply find_crossing_found in Hfound as (Hs & Ht & Hsub & Hrate).
  unfold py_index, floats in Hs, Ht.
  change (map PFloat times) with (PFloat <$> times) in Hs, Ht.
  rewrite list_lookup_fmap in Hs, Ht.
  destruct (times !! s) as [a|] eqn:Ea; [|done].
  destruct (times !! e) as [b|] eqn:Eb; [|done].
  simpl in Hs, Ht. injection Hs as <-. injection Ht as <-.
  simpl in Hsub. injection Hsub as <-.
  exists (b - a)%Q. split; [done|].
  assert (s < e -> (0 < b - a)%Q) as Hpos.
  { intros Hlt. pose proof (sorted_lookup_lt _ _ _ _ _ _ Hsorted Hlt Ea Eb) as H.
    unfold Qminus. rewrite <- (Qplus_opp_r a). by apply Qplus_lt_l. }
  split.
  - destruct (decide (s = e)) as [->|Hd].
    + rewrite Ea in Eb. injection Eb as ->.
      unfold Qminus. rewrite Qplus_opp_r. apply Qle_refl.
    + apply Qlt_le_weak, Hpos. lia.
  - intros Hlt. split; [by apply Hpos|].
    rewrite (rate_spec start_value end_value (PFloat (b - a))
               (NFloat (b - a)) eq_refl) in Hrate.
    cbn [num_Q] in Hrate. rewrite (proj2 (Qltb_lt _ _) (Hpos Hlt)) in Hrate.
    destruct (quotient_fits _ _); [by injection Hrate as <- | done].
Qed.

Lemma crossing_indexes_ordered_witness :
  1 <= 3 /\ 3 < length [5; 5; 12; 20]%Z
  /\ (StronglySorted Qlt [0; 1; 2; 3]%Q ->
      exists q, PFloat 2 = PFloat q /\ (0 <= q)%Q
        /\ (1 < 3 ->
            (0 < q)%Q
            /\ PFloat (10 # 2) = PFloat (inject_Z (Z.abs (20 - 10)) / q))).
Proof.
  apply (crossing_indexes_ordered [5; 5; 12; 20]%Z [0; 1; 2; 3]%Q 10%Z 20%Z
           1 3 (PFloat 1) (PFloat 3)).
  - lia.
  - reflexivity.
Defined.

(** ** What the polling loop records *)

Lemma polls_family_series (protocol : string) (families : list string)
    (start_time : Q) (ts : list tick) (rs : routeStats) (f : string) :
  f ∈ families ->
  let stats_at t :=
    stats_of_family f
      (get_protocol_stats_by_family protocol families (fetched t)) in
  let rs' := foldl (poll_once protocol families start_time) rs ts in
  series rs' (total_key f protocol)
  = series rs (total_key f protocol) ++ ((fun t => total (stats_at t)) <$> ts)
  /\ series rs' (active_key f protocol)
     = series rs (active_key f protocol)
       ++ ((fun t => active (stats_at t)) <$> ts).
Proof.
  intros Hf stats_at. revert rs. induction ts as [|t ts IH]; intros rs; simpl.
  - by rewrite !app_nil_r.
  - destruct (IH (poll_once protocol families start_time rs t)) as [Ht Ha].
    destruct (stats_of_entry protocol families t f Hf) as [st Hst].
    destruct (poll_once_family protocol families start_time rs t f st Hst)
      as [Ht1 Ha1].
    assert (stats_at t = st) as Est.
    { unfold stats_at, stats_of_family.
      by rewrite (dict_get_elem f st _ (stats_of_NoDup protocol families t) Hst). }
    rewrite Ht, Ha, Ht1, Ha1, Est, <- !app_assoc. done.
Qed.

(** X4.  For every requested family, the total and the active sequence
    that the polling loop leaves hold, round by round and in order, the
    two counts that [get_protocol_stats_by_family] returned for the
    family in that round, and the elapsed-time sequence holds the clock
    reading of the round minus the start time. *)
Theorem series_record_stats (protocol : string) (families : list string)
    (start_time : Q) (duration : Z) (ticks : list tick) (f : string) :
  f ∈ families ->
  let rs := poll_loop protocol families start_time duration ticks
                      init_routeStats in
  let rounds := executed start_time duration ticks in
  let stats_at t :=
    stats_of_family f
      (get_protocol_stats_by_family protocol families (fetched t)) in
  series rs elapsed_key
  = floats ((fun t => sample_clock t - start_time)%Q <$> rounds)
  /\ series rs (total_key f protocol) = (fun t => total (stats_at t)) <$> rounds
  /\ series rs (active_key f protocol)
     = (fun t => active (stats_at t)) <$> rounds.
Proof.
  intros Hf rs rounds stats_at. subst rs. rewrite poll_loop_foldl.
  fold rounds.
  assert (families <> []) as Hne by (intros ->; by apply elem_of_nil in Hf).
  destruct (polls_family_series protocol families start_time rounds
              init_routeStats f Hf) as [Ht Ha].
  rewrite Ht, Ha, polls_elapsed by done.
  unfold series, init_routeStats. rewrite lookup_singleton_eq.
  rewrite !lookup_singleton_ne
    by (intros E; symmetry in E;
        (by apply total_elapsed_ne in E) || (by apply active_elapsed_ne in E)).
  done.
Qed.

Lemma series_record_stats_witness :
  let t := {| stop_threads := false; guard_clock := 1; sample_clock := 2;
              fetched := response [afi_entry "srl_nokia-common:ipv4-unicast"
                                             (PStr "7") (PStr "9")] |} in
  let rs := poll_loop "bgp" ["ipv4-unicast"] 0 10 [t] init_routeStats in
  let stats_at t :=
    stats_of_family "ipv4-unicast"
      (get_protocol_stats_by_family "bgp" ["ipv4-unicast"] (fetched t)) in
  series rs elapsed_key
  = floats ((fun t => sample_clock t - 0)%Q <$> executed 0 10 [t])
  /\ series rs (total_key "ipv4-unicast" "bgp")
     = (fun t => total (stats_at t)) <$> executed 0 10 [t]
  /\ series rs (active_key "ipv4-unicast" "bgp")
     = (fun t => active (stats_at t)) <$> executed 0 10 [t].
Proof.
  intros t.
  apply (series_record_stats "bgp" ["ipv4-unicast"] 0 10 [t] "ipv4-unicast").
  apply elem_of_cons. by left.
Defined.

Lemma polls_no_family (protocol : string) (start_time : Q) (ts : list tick)
    (rs : routeStats) :
  foldl (poll_once protocol [] start_time) rs ts = rs.
Proof.
  revert rs. induction ts as [|t ts IH]; intros rs; simpl; [done|].
  by rewrite poll_once_nil, IH.
Qed.

Lemma polls_dom (protocol : string) (families : list string)
    (start_time : Q) (ts : list tick) (rs : routeStats) (x : string) :
  is_Some (foldl (poll_once protocol families start_time) rs ts !! x)
  <-> is_Some (rs !! x)
      \/ (ts <> [] /\ families <> []
          /\ (x = elapsed_key \/ family_key protocol families x)).
Proof.
  revert rs. induction ts as [|t ts IH]; intros rs; simpl.
  - naive_solver.
  - rewrite IH. destruct (decide (families = [])) as [Hnil|Hne].
    + rewrite poll_once_nil by done. naive_solver.
    + rewrite poll_once_dom by done. naive_solver.
Qed.

(** X5.  After the polling loop of a device, the keys of its sequences
    are the elapsed-time key and, once a round ran, the total and the
    active key of every requested family; and [main] counts the device
    among those with data exactly when families were requested and the
    loop ran at least one round, whatever the fetches returned. *)
Theorem device_has_data_iff (target protocol : string)
    (families : list string) (start_time : Q) (duration : Z)
    (ticks : list tick) (data_dict : rtrData) :
  let rs := poll_loop protocol families start_time duration ticks
                      init_routeStats in
  let data := collect_route_data target protocol families start_time
                                 duration ticks data_dict in
  (forall x, is_Some (rs !! x)
             <-> x = elapsed_key
                 \/ (executed start_time duration ticks <> []
                     /\ family_key protocol families x))
  /\ (has_data data target = true
      <-> families <> [] /\ executed start_time duration ticks <> []).
Proof.
  intros rs data.
  assert (forall x, is_Some (rs !! x)
             <-> x = elapsed_key
                 \/ (executed start_time duration ticks <> []
                     /\ family_key protocol families x)) as Hdom.
  { intros x. unfold rs. rewrite poll_loop_foldl, polls_dom.
    unfold init_routeStats. split.
    - intros [[l Hl]|(Hts & Hne & [->|Hk])]; auto.
      apply lookup_singleton_Some in Hl as [<- _]. by left.
    - intros [->|[Hts Hk]].
      + left. rewrite lookup_singleton_eq. eauto.
      + right. split; [done|]. split; [|by right].
        intros ->. by destruct Hk as (f & ?%elem_of_nil & _). }
  split; [done|].
  assert (data !! target = Some rs) as Hrs by apply lookup_insert_eq.
  unfold has_data. rewrite Hrs, Nat.ltb_lt. split.
  - intros Hsize.
    destruct (decide (families <> [] /\ executed start_time duration ticks <> []))
      as [|Hno]; [done|].
    assert (rs = init_routeStats) as E.
    { unfold rs. rewrite poll_loop_foldl.
      destruct (decide (families = [])) as [->|Hne];
        [apply polls_no_family|].
      destruct (executed start_time duration ticks) as [|t ts]; [done|].
      by destruct Hno. }
    rewrite E in Hsize. unfold init_routeStats in Hsize.
    rewrite map_size_singleton in Hsize. lia.
  - intros [Hne Hts]. destruct families as [|f l] eqn:Ef; [done|].
    apply (size_two_keys rs elapsed_key (total_key f protocol)).
    + intros E. symmetry in E. by apply total_elapsed_ne in E.
    + apply Hdom. by left.
    + apply Hdom. right. split; [done|]. exists f.
      split; [apply elem_of_cons; by left | by left].
Qed.

(** X6.  When at the first test of the loop condition the stop flag is
    set, or the duration is not positive and the clock is not before the
    start time, the loop runs no round: the device is left with its empty
    elapsed-time sequence only, and [main] reports it as without data. *)
Theorem no_round_no_data (target protocol : string) (families : list string)
    (start_time : Q) (duration : Z) (t : tick) (ticks : list tick)
    (data_dict : rtrData) :
  stop_threads t = true
  \/ ((duration <= 0)%Z /\ (start_time <= guard_clock t)%Q) ->
  poll_loop protocol families start_time duration (t :: ticks) init_routeStats
  = init_routeStats
  /\ has_data (collect_route_data target protocol families start_time
                                  duration (t :: ticks) data_dict) target
     = false.
Proof.
  intros Hstop.
  assert (loop_condition start_time duration t = false) as Hcond.
  { unfold loop_condition. destruct Hstop as [->|[Hd Hc]]; [done|].
    apply andb_false_intro2, not_true_iff_false. rewrite Qltb_lt.
    apply Qle_not_lt. apply Qle_trans with 0%Q.
    - change 0%Q with (inject_Z 0). by rewrite <- Zle_Qle.
    - unfold Qminus. rewrite <- (Qplus_opp_r start_time).
      by apply Qplus_le_l. }
  assert (poll_loop protocol families start_time duration (t :: ticks)
                    init_routeStats = init_routeStats) as Hloop.
  { simpl. by rewrite Hcond. }
  split; [done|].
  unfold has_data, collect_route_data. rewrite lookup_insert_eq, Hloop.
  unfold init_routeStats. by rewrite map_size_singleton.
Qed.

Lemma no_round_no_data_witness :
  let t := {| stop_threads := false; guard_clock := 5; sample_clock := 5;
              fetched := PNone |} in
  poll_loop "bgp" ["ipv4-unicast"] 5 0 [t] init_routeStats = init_routeStats
  /\ has_data (collect_route_data "r1" "bgp" ["ipv4-unicast"] 5 0 [t] ∅) "r1"
     = false.
Proof.
  intros t.
  apply (no_round_no_data "r1" "bgp" ["ipv4-unicast"] 5 0 t [] ∅).
  right. split; [lia|]. unfold Qle. simpl. lia.
Defined.

(** ** What [main] starts the collection with *)

Lemma split_nonempty (sep : ascii) (s : string) : split sep s <> [].
Proof.
  destruct s as [|c s]; simpl; [done|].
  destruct (Ascii.eqb c sep); [done|]. by destruct (split sep s).
Qed.

(** X7.  When [main] gets past its validation, one thread is started per
    comma-separated target, stripped of surrounding white space; neither
    the target list nor the family list is empty; thresholds are in use
    exactly when both options were given; and then each threshold list
    has one integer per family, so that the scan can read the thresholds
    of every family. *)
Theorem startup_collects (a : arguments) (targets families : list string)
    (thresholds : option (list Z * list Z)) :
  main_startup a = Collect targets families thresholds ->
  pollers_started (main_startup a) = strip <$> split "," (arg_targets a)
  /\ targets = strip <$> split "," (arg_targets a)
  /\ families = strip <$> split "," (arg_families a)
  /\ targets <> [] /\ families <> []
  /\ (is_Some thresholds
      <-> given (arg_start_values a) && given (arg_end_values a) = true)
  /\ (forall starting_values ending_values,
        thresholds = Some (starting_values, ending_values) ->
        length starting_values = length families
        /\ length ending_values = length families
        /\ forall idx, idx < length families ->
             exists sv ev, py_index starting_values idx = Ok sv
                           /\ py_index ending_values idx = Ok ev).
Proof.
  intros Hstart.
  assert (strip <$> split "," (arg_targets a) <> []) as Ht.
  { intros E%fmap_nil_inv. by apply split_nonempty in E. }
  assert (strip <$> split "," (arg_families a) <> []) as Hf.
  { intros E%fmap_nil_inv. by apply split_nonempty in E. }
  rewrite Hstart. revert Hstart. unfold main_startup.
  destruct (given (arg_start_values a) && given (arg_end_values a)) eqn:Hg.
  - destruct (int_list _) as [sv|] eqn:Esv; [|done].
    destruct (int_list (default "" (arg_end_values a))) as [ev|] eqn:Eev;
      [|done].
    destruct (negb (length sv =? _) || negb (length ev =? _)) eqn:Hlen; [done|].
    intros [= <- <- <-]. simpl.
    apply orb_false_elim in Hlen as [H1 H2].
    apply negb_false_iff, Nat.eqb_eq in H1, H2.
    split_and!; try done.
    intros sv' ev' [= <- <-]. split_and!; try done.
    intros idx Hidx.
    assert (idx < length sv) as Hs by lia.
    assert (idx < length ev) as He by lia.
    apply lookup_lt_is_Some_2 in Hs as [x Hx], He as [y Hy].
    exists x, y. unfold py_index. by rewrite Hx, Hy.
  - intros [= <- <- <-]. simpl. split_and!; try done.
    all: by (split; [intros [? ?] | intros ?]).
Qed.

Lemma startup_collects_witness :
  let a := {| arg_targets := "r1, r2"; arg_protocol := "bgp";
              arg_families := "ipv4-unicast,ipv6-unicast";
              arg_duration := 60;
              arg_start_values := Some "10, 20";
              arg_end_values := Some "100,200" |} in
  pollers_started (main_startup a) = strip <$> split "," (arg_targets a)
  /\ ["r1"; "r2"] = strip <$> split "," (arg_targets a).
Proof.
  intros a.
  pose proof (startup_collects a ["r1"; "r2"] ["ipv4-unicast"; "ipv6-unicast"]
                (Some ([10; 20]%Z, [100; 200]%Z)) eq_refl) as H.
  exact (conj (proj1 H) (proj1 (proj2 H))).
Defined.

(** ** The scan of a polled device *)

Lemma enumerate_elem {A} (l : list A) (i0 i : nat) (x : A) :
  (i, x) ∈ enumerate i0 l -> i0 <= i < i0 + length l /\ x ∈ l.
Proof.
  revert i0. induction l as [|y l IH]; intros i0; simpl.
  - by intros ?%elem_of_nil.
  - intros [[= -> ->]|Hin]%elem_of_cons.
    + split; [lia | apply elem_of_cons; by left].
    + apply IH in Hin as [? ?]. split; [lia | apply elem_of_cons; by right].
Qed.

Lemma enumerate_length {A} (l : list A) (i0 : nat) :
  length (enumerate i0 l) = length l.
Proof. revert i0. induction l as [|y l IH]; intros i0; simpl; auto. Qed.

(** Rounds that leave the state as it is can be run one after the
    other. *)
Lemma map_each_stable {S A B} (P : B -> Prop) (xs : list A)
    (body : A -> M S B) (s : S) :
  (forall x, x ∈ xs -> exists y, body x s = (s, Ok y) /\ P y) ->
  exists ys, map_each xs body s = (s, Ok ys)
             /\ length ys = length xs /\ Forall P ys.
Proof.
  induction xs as [|x xs IH]; intros Hbody.
  - exists []. by repeat split.
  - destruct (Hbody x) as (y & Hy & Py); [apply elem_of_cons; by left|].
    destruct IH as (ys & Hys & Hlen & Hall).
    { intros x' Hx'. apply Hbody, elem_of_cons. by right. }
    exists (y :: ys). rewrite map_each_cons, Hy, Hys. simpl.
    split; [done|]. split; [by rewrite Hlen | by constructor].
Qed.

Lemma ints_of_values (l : list pyval) :
  Forall (fun v => exists n, v = PInt n) l -> exists counts, l = ints counts.
Proof.
  induction 1 as [|v l [n ->] _ [counts ->]].
  - by exists [].
  - by exists (n :: counts).
Qed.

(** X8.  On the store that the polling loop leaves, when every total the
    statistics function returned is an integer, each threshold list has
    one entry per family and the two thresholds of a family are less
    than [float_overflow] apart, the convergence scan of the device
    raises nothing and leaves the store as it is; it gives one report
    per family, a scan result for each when at least one round ran and
    none when no round ran. *)
Theorem convergence_after_polling (protocol : string)
    (families : list string) (start_time : Q) (duration : Z)
    (ticks : list tick) (starting_values ending_values : list Z) :
  length starting_values = length families ->
  length ending_values = length families ->
  (forall idx sv ev,
     starting_values !! idx = Some sv -> ending_values !! idx = Some ev ->
     (Z.abs (ev - sv) < float_overflow)%Z) ->
  (forall t f st, t ∈ ticks ->
     (f, st) ∈ get_protocol_stats_by_family protocol families (fetched t) ->
     exists n, total st = PInt n) ->
  let rs := poll_loop protocol families start_time duration ticks
                      init_routeStats in
  exists reports,
    device_convergence protocol families starting_values ending_values rs
    = (rs, Ok reports)
    /\ length reports = length families
    /\ Forall (fun report =>
                 is_Some report
                 <-> executed start_time duration ticks <> []) reports.
Proof.
  intros Hsv Hev Hfit Hint rs.
  set (rounds := executed start_time duration ticks).
  destruct (poll_loop_aligned protocol families start_time duration ticks)
    as [([times0 Hel] & _ & Hlen) _].
  fold rs in Hel, Hlen.
  assert (touch rs = rs) as Htouch by (unfold touch; by rewrite Hel).
  unfold device_convergence.
  destruct (map_each_stable
              (fun report => is_Some report <-> rounds <> [])
              (enumerate 0 families)
              (family_convergence protocol starting_values ending_values) rs)
    as (reports & Hrun & Hn & Hall).
  - intros [idx f] [Hidx Hf]%enumerate_elem.
    rewrite family_convergence_eq, Htouch.
    destruct (rs !! total_key f protocol) as [l|] eqn:El.
    + assert (rounds <> []) as Hrounds.
      { intros E. unfold rs in El. rewrite poll_loop_foldl in El.
        fold rounds in El. rewrite E in El. simpl in El.
        unfold init_routeStats in El.
        rewrite lookup_singleton_ne in El; [done|].
        intros E'. symmetry in E'. by apply total_elapsed_ne in E'. }
      assert (families <> []) as Hne by (intros ->; by apply elem_of_nil in Hf).
      assert (exists times, series rs elapsed_key = floats times) as [times Ht].
      { eexists. unfold rs. rewrite poll_loop_foldl, polls_elapsed by done.
        unfold series, init_routeStats. by rewrite lookup_singleton_eq. }
      assert (exists counts, l = ints counts) as [counts ->].
      { apply ints_of_values.
        rewrite <- (series_lookup rs _ l El). unfold rs.
        rewrite poll_loop_foldl.
        rewrite (proj1 (polls_family_series protocol families start_time
                          (executed start_time duration ticks)
                          init_routeStats f Hf)).
        unfold series, init_routeStats.
        rewrite lookup_singleton_ne
          by (intros E'; symmetry in E'; by apply total_elapsed_ne in E').
        simpl. rewrite Forall_fmap, Forall_forall. intros t Ht'. simpl.
        apply executed_elem in Ht'.
        destruct (stats_of_entry protocol families t f Hf) as [st Hst].
        unfold stats_of_family.
        rewrite (dict_get_elem f st _ (stats_of_NoDup protocol families t) Hst).
        by apply (Hint t f st). }
      assert (length times = length counts) as Hlens.
      { assert (length (series rs (total_key f protocol))
                = length (series rs elapsed_key)) as E.
        { apply Hlen. exists f. split; [done | by left]. }
        rewrite (series_lookup rs _ _ El), Ht in E.
        unfold ints, floats in E. by rewrite !length_map in E. }
      rewrite Ht. unfold family_report.
      destruct (lookup_lt_is_Some_2 starting_values idx) as [sv Hs]; [lia|].
      destruct (lookup_lt_is_Some_2 ending_values idx) as [ev He]; [lia|].
      unfold py_index at 1 2. rewrite Hs, He. simpl.
      pose proof (find_crossing_ints counts times sv ev Hlens) as Hc.
      pose proof (Hfit idx sv ev Hs He) as Hfits.
      destruct (find_crossing (ints counts) (floats times) sv ev) as [c|ex];
        [|destruct Hc; lia].
      simpl. eexists. split; [done|]. split; eauto.
    + eexists. split; [done|]. split; [by intros [? ?]|].
      intros Hrounds. exfalso.
      assert (families <> []) as Hne by (intros ->; by apply elem_of_nil in Hf).
      assert (is_Some (rs !! total_key f protocol)) as [l Hl]; [|congruence].
      unfold rs. rewrite poll_loop_foldl. apply polls_dom. right.
      split; [done|]. split; [done|]. right. exists f. split; [done | by left].
  - exists reports. rewrite enumerate_length in Hn. done.
Qed.

Lemma convergence_after_polling_witness :
  let t := {| stop_threads := false; guard_clock := 1; sample_clock := 2;
              fetched := PNone |} in
  let rs := poll_loop "bgp" ["ipv4-unicast"] 0 10 [t] init_routeStats in
  exists reports,
    device_convergence "bgp" ["ipv4-unicast"] [0%Z] [5%Z] rs = (rs, Ok reports)
    /\ length reports = length ["ipv4-unicast"]
    /\ Forall (fun report => is_Some report <-> executed 0 10 [t] <> [])
              reports.
Proof.
  intros t.
  apply (convergence_after_polling "bgp" ["ipv4-unicast"] 0 10 [t]
           [0%Z] [5%Z]).
  - reflexivity.
  - reflexivity.
  - intros [|idx] sv ev; [|by destruct idx]. by intros [= <-] [= <-].
  - intros t' f st Ht' Hin. apply list_elem_of_singleton in Ht'. subst t'.
    vm_compute in Hin. apply list_elem_of_singleton in Hin.
    injection Hin as _ ->. by exists 0%Z.
Defined.

(** ** The route summary *)

Lemma is_digit_not_underscore (c : ascii) :
  is_digit c = true -> Ascii.eqb c "_" = false.
Proof.
  destruct c as [b0 b1 b2 b3 b4 b5 b6 b7].
  destruct b0, b1, b2, b3, b4, b5, b6, b7; vm_compute; congruence.
Qed.

Lemma int_digits_superscript (s : string) (acc : Z) (b : bool) :
  all_chars is_digit s = true -> all_chars is_decimal s = false ->
  int_digits s acc b = Raise ValueError.
Proof.
  revert acc b. induction s as [|c s IH]; simpl; intros acc b; [done|].
  intros [Hc Hs]%andb_prop Hdec.
  destruct (is_decimal c) eqn:Ec.
  - by apply IH.
  - by rewrite (is_digit_not_underscore c Hc).
Qed.

Lemma int_digits_decimal (s : string) (acc : Z) (b : bool) :
  all_chars is_decimal s = true -> s <> EmptyString \/ b = true ->
  exists n, int_digits s acc b = Ok n.
Proof.
  revert acc b. induction s as [|c s IH]; simpl; intros acc b Hs Hne.
  - destruct Hne as [?| ->]; [done | by exists acc].
  - apply andb_prop in Hs as [Hc Hs]. rewrite Hc. apply IH; [done | by right].
Qed.

(** The counts that convert to an integer: an integer, a string that
    [isdigit] refuses (read as 0), and a string of decimal digits that is
    not longer than [int] reads. *)
Lemma countable_spec (v : pyval) :
  countable v
  <-> match v with
      | PInt _ => True
      | PStr s =>
          isdigit s = true ->
          all_chars is_decimal s = true
          /\ (digit_count s <= int_max_str_digits)%Z
      | _ => False
      end.
Proof.
  unfold countable.
  destruct v as [|b|n|q|s|l|d]; simpl;
    try (split; [by intros [n [= ]] | done]).
  - split; [done | by exists n].
  - destruct (isdigit s) eqn:Hd.
    + rewrite (int_of_digits s Hd). split.
      * intros [n Hn] _.
        destruct (int_unsigned s) as [m|] eqn:E; [|done].
        apply int_unsigned_ok in E as [E Hlen]. split; [|done].
        destruct (all_chars is_decimal s) eqn:Hdec; [done|].
        rewrite (int_digits_superscript s) in E; [done| |done].
        by destruct s.
      * intros [Hdec Hlen]; [done|].
        destruct (int_digits_decimal s 0 false Hdec) as [n Hn].
        { left. by destruct s. }
        exists n. by rewrite (proj2 (int_unsigned_ok s n)).
    + split; [done | by exists 0%Z].
Qed.







(** ** The entry that a family's statistics come from *)







(** ** A command that fails *)

(** X11.  When the gnmic command times out, raises, ends with a return
    code other than 0 or prints what [json.loads] rejects,
    [execute_gnmic_command] returns [None]; the statistics by family are
    then zeros for every requested family, and the route summary is zeros
    for BGP and [None] for any other protocol. *)
Theorem failed_command_gives_zeros (run : list string -> run_outcome)
    (json_loads : string -> option pyval)
    (target username password network_instance protocol : string)
    (families : list string) :
  match run (gnmic_cmd target username password
                       (afi_safi_path network_instance)) with
  | Completed returncode stdout _ =>
      returncode <> 0%Z \/ json_loads stdout = None
  | _ => True
  end ->
  let data := execute_gnmic_command run json_loads target username password
                                    (afi_safi_path network_instance) in
  data = PNone
  /\ (forall f, f ∈ families ->
        dict_get f (get_protocol_stats_by_family protocol families data)
        = Some zero_stats)
  /\ get_route_summary protocol data
     = (if String.eqb (lower protocol) "bgp" then Some zero_stats else None).
Proof.
  intros Hfail data.
  assert (data = PNone) as ->.
  { unfold data, execute_gnmic_command.
    destruct (run _) as [rc out err| |]; try done.
    destruct (Z.eqb_spec rc 0) as [->|Hrc]; simpl; [|done].
    destruct Hfail as [?| ->]; done. }
  split; [done|]. split.
  - intros f Hf.
    destruct (stats_by_family_inv protocol families PNone) as (_ & _ & Hzero).
    apply Hzero; [|done]. right. by left.
  - unfold get_route_summary. by destruct (String.eqb (lower protocol) "bgp").
Qed.

Lemma failed_command_gives_zeros_witness :
  let data := execute_gnmic_command (fun _ => TimeoutExpired) (fun _ => None)
                "r1" "admin" "secret" (afi_safi_path "default") in
  data = PNone
  /\ (forall f, f ∈ ["ipv4-unicast"] ->
        dict_get f (get_protocol_stats_by_family "bgp" ["ipv4-unicast"] data)
        = Some zero_stats)
  /\ get_route_summary "bgp" data
     = (if String.eqb (lower "bgp") "bgp" then Some zero_stats else None).
Proof.
  apply (failed_command_gives_zeros (fun _ => TimeoutExpired) (fun _ => None)
           "r1" "admin" "secret" "default" "bgp" ["ipv4-unicast"]).
  exact I.
Defined.

(** ** An answer with an entry that cannot be read *)






(** ** Digits that are not decimal *)



(** ** A count with too many digits *)




(** ** The names read from the command line *)

Lemma lstrip_chars (s : string) (c : ascii) :
  c ∈ list_ascii_of_string (lstrip s) -> c ∈ list_ascii_of_string s.
Proof.
  induction s as [|d s IH]; simpl; [done|].
  destruct (is_space d); [|done].
  intros H. apply elem_of_cons. right. by apply IH.
Qed.

Lemma rstrip_chars (s : string) (c : ascii) :
  c ∈ list_ascii_of_string (rstrip s) -> c ∈ list_ascii_of_string s.
Proof.
  induction s as [|d s IH]; simpl; [done|].
  destruct (rstrip s) as [|d' r] eqn:E.
  - destruct (is_space d); simpl; [by intros ?%elem_of_nil|].
    intros [->|?%elem_of_nil]%elem_of_cons; [|done].
    apply elem_of_cons. by left.
  - simpl. intros [->|H]%elem_of_cons; apply elem_of_cons; [by left|].
    right. by apply IH.
Qed.

Lemma split_no_separator (sep : ascii) (s x : string) :
  x ∈ split sep s -> sep ∉ list_ascii_of_string x.
Proof.
  revert x. induction s as [|c s IH]; simpl; intros x.
  - intros ->%list_elem_of_singleton. simpl. apply not_elem_of_nil.
  - destruct (Ascii.eqb_spec c sep) as [->|Hne].
    + intros [->|Hx]%elem_of_cons; [apply not_elem_of_nil | by apply IH].
    + destruct (split sep s) as [|h t] eqn:E.
      * intros ->%list_elem_of_singleton. simpl.
        intros [Heq|?%elem_of_nil]%elem_of_cons; [congruence | done].
      * intros [->|Hx]%elem_of_cons.
        -- simpl. intros [Heq|Hin]%elem_of_cons; [congruence|].
           apply (IH h); [apply elem_of_cons; by left | done].
        -- apply IH. apply elem_of_cons. by right.
Qed.

Lemma lstrip_starts_clean (s : string) : starts_clean (lstrip s).
Proof.
  induction s as [|c s IH]; simpl; [done|].
  by destruct (is_space c) eqn:E.
Qed.

Lemma rstrip_starts_clean (s : string) :
  starts_clean s -> starts_clean (rstrip s).
Proof.
  destruct s as [|c s]; simpl; [done|]. intros Hc.
  destruct (rstrip s); simpl; [by rewrite Hc | done].
Qed.

Lemma lstrip_clean (s : string) : starts_clean s -> lstrip s = s.
Proof. destruct s as [|c s]; simpl; [done|]. by intros ->. Qed.

Lemma rstrip_cons (c : ascii) (s : string) :
  rstrip (String c s)
  = match rstrip s with
    | EmptyString => if is_space c then EmptyString else String c EmptyString
    | r => String c r
    end.
Proof. reflexivity. Qed.

Lemma rstrip_rstrip (s : string) : rstrip (rstrip s) = rstrip s.
Proof.
  induction s as [|c s IH]; simpl; [done|].
  destruct (rstrip s) as [|d r] eqn:E.
  - destruct (is_space c) eqn:Ec; simpl; [done | by rewrite Ec].
  - rewrite (rstrip_cons c (String d r)), IH. done.
Qed.

Lemma strip_strip (s : string) : strip (strip s) = strip s.
Proof.
  unfold strip at 1.
  rewrite (lstrip_clean (strip s)).
  - unfold strip. apply rstrip_rstrip.
  - unfold strip. apply rstrip_starts_clean, lstrip_starts_clean.
Qed.

Lemma strip_chars (s : string) (c : ascii) :
  c ∈ list_ascii_of_string (strip s) -> c ∈ list_ascii_of_string s.
Proof. unfold strip. by intros ?%rstrip_chars%lstrip_chars. Qed.

Lemma stripped_pieces (arg x : string) :
  x ∈ strip <$> split "," arg ->
  strip x = x /\ ","%char ∉ list_ascii_of_string x.
Proof.
  intros (y & -> & Hy)%list_elem_of_fmap. split; [apply strip_strip|].
  intros Hc%strip_chars. by apply (split_no_separator "," arg y).
Qed.

(** X14.  Every target and every family that [main] starts the
    collection with is free of commas and of leading and trailing white
    space (stripping it again changes nothing). *)
Theorem parsed_names_clean (a : arguments) (targets families : list string)
    (thresholds : option (list Z * list Z)) (x : string) :
  main_startup a = Collect targets families thresholds ->
  x ∈ targets \/ x ∈ families ->
  strip x = x /\ ","%char ∉ list_ascii_of_string x.
Proof.
  unfold main_startup.
  assert (Collect (map strip (split "," (arg_targets a)))
                  (map strip (split "," (arg_families a))) thresholds
          = Collect targets families thresholds ->
          x ∈ targets \/ x ∈ families ->
          strip x = x /\ ","%char ∉ list_ascii_of_string x) as Hcollect.
  { intros [= <- <-] [Hx|Hx]; by eapply stripped_pieces. }
  destruct (given (arg_start_values a) && given (arg_end_values a)).
  - destruct (int_list _) as [sv|]; [|done].
    destruct (int_list _) as [ev|]; [|done].
    destruct (negb _ || negb _); [done|].
    intros [= <- <- <-]. by apply Hcollect.
  - intros [= <- <- <-]. by apply Hcollect.
Qed.

Lemma parsed_names_clean_witness :
  strip "r2" = "r2" /\ ","%char ∉ list_ascii_of_string "r2".
Proof.
  apply (parsed_names_clean
           {| arg_targets := "r1 , r2 "; arg_protocol := "bgp";
              arg_families := "ipv4-unicast"; arg_duration := 60;
              arg_start_values := None; arg_end_values := None |}
           ["r1"; "r2"] ["ipv4-unicast"] None "r2").
  - reflexivity.
  - left. apply elem_of_cons. right. apply elem_of_cons. by left.
Defined.
